(** * LVX capture decoding and chunking (Scripts/lvx_to_las.py)

    A shallow embedding of the decoder of [lvx_to_las.py]: the package
    decoder [process_package], the frame loop [process_frame], the file
    traversal of [process_lvx] with its chunk flushes, and the batch loop
    of [main].  Python integers are [Z]; a [bytes] object is a [list byte];
    a raised exception is the [Raise] case of [result]; the calls to the
    two writers ([create_las_from_points], [write_imu_csv]) are recorded
    as events of an output log.  The [print] calls are not modelled. *)

From Stdlib Require Import ZArith List Lia Bool.
From Stdlib Require Import Strings.Byte.
From Stdlib Require Strings.String.
Import ListNotations.
Import String.StringSyntax.
Delimit Scope string_scope with string.
Open Scope Z_scope.

(** ** Python values *)

Module Py.

(** The two exceptions the decoder can raise: [IndexError] from
    [data[i]] out of range and [struct.error] from [struct.unpack] on a
    slice of the wrong length. *)
Inductive exn : Type :=
| IndexError
| StructError.

Inductive result (A : Type) : Type :=
| Ok (a : A)
| Raise (e : exn).
Arguments Ok {A} a.
Arguments Raise {A} e.

Definition bind {A B : Type} (m : result A) (k : A -> result B) : result B :=
  match m with
  | Ok a => k a
  | Raise e => Raise e
  end.

Definition bytes : Type := list byte.

Definition byte_val (b : byte) : Z := Z.of_N (Byte.to_N b).

Definition len (data : bytes) : Z := Z.of_nat (length data).

(** [data[i]]: a negative index counts from the end; out of range raises. *)
Definition index (data : bytes) (i : Z) : result Z :=
  let j := if i <? 0 then i + len data else i in
  if (0 <=? j) && (j <? len data)
  then match nth_error data (Z.to_nat j) with
       | Some b => Ok (byte_val b)
       | None => Raise IndexError
       end
  else Raise IndexError.

(** A slice bound, as Python clamps it into [0, len]. *)
Definition clamp (n i : Z) : Z :=
  let j := if i <? 0 then i + n else i in
  Z.max 0 (Z.min n j).

(** [data[a:b]]: never raises, truncates at the ends of the buffer. *)
Definition slice (data : bytes) (a b : Z) : bytes :=
  let s := clamp (len data) a in
  let e := clamp (len data) b in
  firstn (Z.to_nat (e - s)) (skipn (Z.to_nat s) data).

(** Little-endian value of a byte string. *)
Fixpoint le_unsigned (bs : bytes) : Z :=
  match bs with
  | [] => 0
  | b :: rest => byte_val b + 256 * le_unsigned rest
  end.

(** [int.from_bytes(bs, 'little', signed=True)]: two's complement on the
    width of [bs]; the empty string gives 0. *)
Definition int_from_bytes_signed (bs : bytes) : Z :=
  match bs with
  | [] => 0
  | _ =>
    let u := le_unsigned bs in
    let w := 8 * len bs in
    if u <? 2 ^ (w - 1) then u else u - 2 ^ w
  end.

(** [struct.unpack('<I', bs)[0]] and [struct.unpack('<Q', bs)[0]]. *)
Definition unpack_uint (width : nat) (bs : bytes) : result Z :=
  if Nat.eqb (length bs) width then Ok (le_unsigned bs) else Raise StructError.

Definition unpack_I : bytes -> result Z := unpack_uint 4.
Definition unpack_Q : bytes -> result Z := unpack_uint 8.

(** [struct.unpack('<6f', bs)]: six binary32 values, each kept as its
    32-bit little-endian word. *)
Definition unpack_6f (bs : bytes) : result (Z * Z * Z * Z * Z * Z) :=
  if Nat.eqb (length bs) 24
  then Ok (le_unsigned (slice bs 0 4), le_unsigned (slice bs 4 8),
           le_unsigned (slice bs 8 12), le_unsigned (slice bs 12 16),
           le_unsigned (slice bs 16 20), le_unsigned (slice bs 20 24))
  else Raise StructError.

(** [for i in range(n): s = body(s)], stopping at the first exception. *)
Fixpoint for_range {St : Type} (n : nat) (body : St -> result St) (s : St)
  : result St :=
  match n with
  | O => Ok s
  | S n' => bind (body s) (for_range n' body)
  end.

End Py.

Import Py.

Declare Scope py_scope.
Notation "x <- m ;; k" := (bind m (fun x => k))
  (at level 61, m at next level, right associativity) : py_scope.
Notation "' p <- m ;; k" := (bind m (fun x => let p := x in k))
  (at level 61, p pattern, m at next level, right associativity) : py_scope.
Open Scope py_scope.

(** ** Decoded records *)

(** A point tuple [(x, y, z, intensity, return_number)]. *)
Record point : Type := mkPoint {
  pt_x : Z;
  pt_y : Z;
  pt_z : Z;
  pt_intensity : Z;
  pt_return_number : Z
}.

(** An IMU tuple [(timestamp, gyro_x, gyro_y, gyro_z, acc_x, acc_y, acc_z)]. *)
Record imu_record : Type := mkImu {
  imu_timestamp : Z;
  imu_gyro_x : Z;
  imu_gyro_y : Z;
  imu_gyro_z : Z;
  imu_acc_x : Z;
  imu_acc_y : Z;
  imu_acc_z : Z
}.

(** ** process_package *)

(** The test [x == 0 and y == 0 and z == 0 and reflectivity == 0]. *)
Definition is_sentinel (x y z reflectivity : Z) : bool :=
  (x =? 0) && (y =? 0) && (z =? 0) && (reflectivity =? 0).

(** [if not (...): points.append((x, y, z, reflectivity, rn))]. *)
Definition append_valid (points : list point) (x y z reflectivity rn : Z)
  : list point :=
  if is_sentinel x y z reflectivity
  then points
  else points ++ [mkPoint x y z reflectivity rn].

(** The five reads of one 14-byte sub-entry at [offset]: three signed
    32-bit slices, then the reflectivity and tag bytes. *)
Definition read_sub (data : bytes) (offset : Z) : result (Z * Z * Z * Z * Z) :=
  let x := int_from_bytes_signed (slice data offset (offset + 4)) in
  let y := int_from_bytes_signed (slice data (offset + 4) (offset + 8)) in
  let z := int_from_bytes_signed (slice data (offset + 8) (offset + 12)) in
  reflectivity <- index data (offset + 12) ;;
  tag <- index data (offset + 13) ;;
  Ok (x, y, z, reflectivity, tag).

(** Loop bodies of the three point payloads; the state is
    [(offset, points)]. *)
Definition single_return_entry (data : bytes) (st : Z * list point)
  : result (Z * list point) :=
  let '(offset, points) := st in
  '(x, y, z, reflectivity, _) <- read_sub data offset ;;
  Ok (offset + 14, append_valid points x y z reflectivity 1).

Definition double_return_entry (data : bytes) (st : Z * list point)
  : result (Z * list point) :=
  let '(offset, points) := st in
  '(x1, y1, z1, refl1, _) <- read_sub data offset ;;
  '(x2, y2, z2, refl2, _) <- read_sub data (offset + 14) ;;
  let points := append_valid points x1 y1 z1 refl1 1 in
  let points := append_valid points x2 y2 z2 refl2 2 in
  Ok (offset + 28, points).

Definition triple_return_entry (data : bytes) (st : Z * list point)
  : result (Z * list point) :=
  let '(offset, points) := st in
  '(x1, y1, z1, refl1, _) <- read_sub data offset ;;
  '(x2, y2, z2, refl2, _) <- read_sub data (offset + 14) ;;
  '(x3, y3, z3, refl3, _) <- read_sub data (offset + 28) ;;
  let points := append_valid points x1 y1 z1 refl1 1 in
  let points := append_valid points x2 y2 z2 refl2 2 in
  let points := append_valid points x3 y3 z3 refl3 3 in
  Ok (offset + 42, points).

(** The package header fields, in reading order. *)
Record package_header : Type := mkHeader {
  device_index : Z;
  version : Z;
  slot_id : Z;
  lidar_id : Z;
  reserved : Z;
  status_code : Z;
  timestamp_type : Z;
  data_type : Z;
  timestamp : Z
}.

(** Lines 16-33: the header reads; returns the header and the offset
    after it. *)
Definition read_package_header (data : bytes) (offset : Z)
  : result (package_header * Z) :=
  device_index <- index data offset ;;
  let offset := offset + 1 in
  version <- index data offset ;;
  let offset := offset + 1 in
  slot_id <- index data offset ;;
  let offset := offset + 1 in
  lidar_id <- index data offset ;;
  let offset := offset + 1 in
  reserved <- index data offset ;;
  let offset := offset + 1 in
  status_code <- unpack_I (slice data offset (offset + 4)) ;;
  let offset := offset + 4 in
  timestamp_type <- index data offset ;;
  let offset := offset + 1 in
  data_type <- index data offset ;;
  let offset := offset + 1 in
  timestamp <- unpack_Q (slice data offset (offset + 8)) ;;
  let offset := offset + 8 in
  Ok (mkHeader device_index version slot_id lidar_id reserved status_code
               timestamp_type data_type timestamp, offset).

(** Lines 35-100: the dispatch on [data_type]. *)
Definition process_payload (data : bytes) (h : package_header) (offset : Z)
  : result (list point * option imu_record * Z) :=
  if data_type h =? 2 then
    '(offset, points) <- for_range 96 (single_return_entry data) (offset, []) ;;
    Ok (points, None, offset)
  else if data_type h =? 4 then
    '(offset, points) <- for_range 48 (double_return_entry data) (offset, []) ;;
    Ok (points, None, offset)
  else if data_type h =? 7 then
    '(offset, points) <- for_range 30 (triple_return_entry data) (offset, []) ;;
    Ok (points, None, offset)
  else if data_type h =? 6 then
    '(g1, g2, g3, a1, a2, a3) <- unpack_6f (slice data offset (offset + 24)) ;;
    let offset := offset + 24 in
    Ok ([], Some (mkImu (timestamp h) g1 g2 g3 a1 a2 a3), offset)
  else
    Ok ([], None, offset + 24).

Definition process_package (data : bytes) (offset : Z)
  : result (list point * option imu_record * Z) :=
  '(h, offset) <- read_package_header data offset ;;
  process_payload data h offset.

(** ** process_frame *)

(** The [while offset < frame_end] loop.  [fuel] bounds the number of
    iterations; [None] means the bound was reached before the loop ended. *)
Fixpoint frame_loop (fuel : nat) (data : bytes) (offset frame_end : Z)
         (frame_points : list point) (frame_imu : list imu_record)
  : option (result (list point * list imu_record * Z)) :=
  if offset <? frame_end then
    match fuel with
    | O => None
    | S fuel' =>
      match process_package data offset with
      | Raise e => Some (Raise e)
      | Ok (pts, imu, offset) =>
        let frame_points :=
          match pts with
          | [] => frame_points
          | _ => frame_points ++ pts
          end in
        let frame_imu :=
          match imu with
          | Some r => frame_imu ++ [r]
          | None => frame_imu
          end in
        frame_loop fuel' data offset frame_end frame_points frame_imu
      end
    end
  else Some (Ok (frame_points, frame_imu, offset)).

(** Enough iterations for any frame of [data]: every package that decodes
    starts inside the buffer and moves the offset forward. *)
Definition frame_fuel (data : bytes) : nat := S (2 * length data).

Definition process_frame (data : bytes) (offset frame_end : Z)
  : option (result (list point * list imu_record * Z)) :=
  frame_loop (frame_fuel data) data offset frame_end [] [].

(** ** process_lvx *)

(** The calls to the writers, in call order.  A chunk file is named by
    the base name of the capture and the chunk index. *)
Inductive event : Type :=
| LasChunk (base_name : String.string) (chunk_index : Z) (points : list point)
| CsvChunk (base_name : String.string) (chunk_index : Z)
           (imu : list imu_record)
| LasAll (base_name : String.string) (points : list point)
| CsvAll (base_name : String.string) (imu : list imu_record)
| CsvOverall (base_name : String.string) (imu : list imu_record).

(** Lines 160-165: the file header.  Returns
    [(frame_duration, device_count, offset)]. *)
Definition parse_header (data : bytes) : result (Z * Z * Z) :=
  let offset := 0 in
  let offset := offset + 24 in
  frame_duration <- unpack_I (slice data offset (offset + 4)) ;;
  let offset := offset + 4 in
  device_count <- index data offset ;;
  let offset := offset + 1 in
  let offset := 24 + 4 + 1 + device_count * 59 in
  Ok (frame_duration, device_count, offset).

(** The local variables of [process_lvx] that the frame loop updates,
    with the log of writer calls made so far. *)
Record lvx_state : Type := mkState {
  st_offset : Z;
  total_frames : Z;
  chunk_index : Z;
  overall_imu : list imu_record;
  chunk_points : list point;
  chunk_imu : list imu_record;
  all_points : list point;
  all_imu : list imu_record;
  st_log : list event
}.

Definition initial_state (offset : Z) (log : list event) : lvx_state :=
  mkState offset 0 0 [] [] [] [] [] log.

(** Lines 186-204: the accumulation and flush after one decoded frame. *)
Definition add_frame (base_name : String.string) (data : bytes)
           (frames_per_output : Z) (st : lvx_state)
           (frame_points : list point) (frame_imu : list imu_record)
           (offset : Z) : lvx_state :=
  let total_frames := total_frames st + 1 in
  if frames_per_output =? 0 then
    mkState offset total_frames (chunk_index st) (overall_imu st)
            (chunk_points st) (chunk_imu st)
            (all_points st ++ frame_points) (all_imu st ++ frame_imu)
            (st_log st)
  else
    let chunk_points := chunk_points st ++ frame_points in
    let chunk_imu := chunk_imu st ++ frame_imu in
    let overall_imu := overall_imu st ++ frame_imu in
    if (total_frames mod frames_per_output =? 0) || (offset >=? len data) then
      mkState offset total_frames (chunk_index st + 1) overall_imu [] []
              (all_points st) (all_imu st)
              (st_log st ++ [LasChunk base_name (chunk_index st) chunk_points;
                             CsvChunk base_name (chunk_index st) chunk_imu])
    else
      mkState offset total_frames (chunk_index st) overall_imu
              chunk_points chunk_imu (all_points st) (all_imu st) (st_log st).

(** Lines 177-204: the [while offset < len(data)] loop.  The result is
    the state when the loop ended, with the exception that ended it if
    one was raised; [None] means [fuel] ran out. *)
Fixpoint frames_loop (fuel : nat) (base_name : String.string) (data : bytes)
         (frames_per_output : Z) (st : lvx_state)
  : option (lvx_state * option exn) :=
  if st_offset st <? len data then
    if st_offset st + 24 >? len data then Some (st, None)
    else
      match fuel with
      | O => None
      | S fuel' =>
        let offset := st_offset st in
        match
          (current_offset <- unpack_Q (slice data offset (offset + 8)) ;;
           let offset := offset + 8 in
           next_offset <- unpack_Q (slice data offset (offset + 8)) ;;
           let offset := offset + 8 in
           frame_index <- unpack_Q (slice data offset (offset + 8)) ;;
           let offset := offset + 8 in
           Ok (next_offset, offset))
        with
        | Raise e => Some (st, Some e)
        | Ok (next_offset, offset) =>
          match process_frame data offset next_offset with
          | None => None
          | Some (Raise e) => Some (st, Some e)
          | Some (Ok (frame_points, frame_imu, offset)) =>
            frames_loop fuel' base_name data frames_per_output
                        (add_frame base_name data frames_per_output st
                                   frame_points frame_imu offset)
          end
        end
      end
  else Some (st, None).

Definition lvx_fuel (data : bytes) : nat := S (length data).

(** Lines 206-217: the writer calls after the loop. *)
Definition finish (base_name : String.string) (frames_per_output : Z)
           (st : lvx_state) : lvx_state :=
  let '(log, overall_imu) :=
    if frames_per_output =? 0
    then (st_log st ++ [LasAll base_name (all_points st);
                        CsvAll base_name (all_imu st)],
          all_imu st)
    else (st_log st, overall_imu st) in
  mkState (st_offset st) (total_frames st) (chunk_index st) overall_imu
          (chunk_points st) (chunk_imu st) (all_points st) (all_imu st)
          (log ++ [CsvOverall base_name overall_imu]).

(** [process_lvx] on the bytes of one capture, continuing the log [log].
    The result carries the final local variables (their [st_log] is the log
    afterwards) and the exception that ended the call, if any. *)
Definition process_lvx (base_name : String.string) (data : bytes)
           (frames_per_output : Z) (log : list event)
  : option (lvx_state * option exn) :=
  match parse_header data with
  | Raise e => Some (initial_state 0 log, Some e)
  | Ok (_, _, offset) =>
    match frames_loop (lvx_fuel data) base_name data frames_per_output
                      (initial_state offset log) with
    | None => None
    | Some (st, Some e) => Some (st, Some e)
    | Some (st, None) => Some (finish base_name frames_per_output st, None)
    end
  end.

(** ** main *)

(** The loop of [main] over the captures of the folder, given as the
    sorted list of their base names and contents.  There is no handler:
    an exception of [process_lvx] ends the loop. *)
Fixpoint main_loop (files : list (String.string * bytes))
         (frames_per_output : Z) (log : list event)
  : option (list event * option exn) :=
  match files with
  | [] => Some (log, None)
  | (base_name, data) :: rest =>
    match process_lvx base_name data frames_per_output log with
    | None => None
    | Some (st, Some e) => Some (st_log st, Some e)
    | Some (st, None) => main_loop rest frames_per_output (st_log st)
    end
  end.

Definition main (files : list (String.string * bytes))
           (frames_per_output : Z) : option (list event * option exn) :=
  main_loop files frames_per_output [].

(** ** Reference description of a point payload

    Entry [i] of a payload of [cnt] entries with [r] returns each starts at
    [base + 14 * r * i]; its sub-entry [k] (counted from 0) starts 14 * k
    bytes later and carries return number [k + 1]. *)

Definition entry_positions (r : nat) (base : Z) : list (Z * Z) :=
  map (fun k => (base + 14 * Z.of_nat k, Z.of_nat k + 1)) (seq 0 r).

Fixpoint sub_positions (r cnt : nat) (base : Z) : list (Z * Z) :=
  match cnt with
  | O => []
  | S cnt' =>
    entry_positions r base ++ sub_positions r cnt' (base + 14 * Z.of_nat r)
  end.

(** The point read at a position, whatever its content. *)
Definition decode_at (data : bytes) (pos : Z * Z) : result point :=
  '(x, y, z, reflectivity, _) <- read_sub data (fst pos) ;;
  Ok (mkPoint x y z reflectivity (snd pos)).

Fixpoint decode_all (data : bytes) (ps : list (Z * Z)) : result (list point) :=
  match ps with
  | [] => Ok []
  | p :: rest =>
    q <- decode_at data p ;;
    qs <- decode_all data rest ;;
    Ok (q :: qs)
  end.

Definition sentinel_point (p : point) : bool :=
  is_sentinel (pt_x p) (pt_y p) (pt_z p) (pt_intensity p).

Definition valid_points (ps : list point) : list point :=
  filter (fun p => negb (sentinel_point p)) ps.

(** Returns per entry, entries per package and payload bytes of a
    [data_type], as the branches of [process_payload] have them. *)
Definition returns_of (dt : Z) : nat :=
  if dt =? 2 then 1%nat else if dt =? 4 then 2%nat
  else if dt =? 7 then 3%nat else 0%nat.

Definition entries_of (dt : Z) : nat :=
  if dt =? 2 then 96%nat else if dt =? 4 then 48%nat
  else if dt =? 7 then 30%nat else 0%nat.

Definition payload_size (dt : Z) : Z :=
  if dt =? 2 then 1344 else if dt =? 4 then 1344
  else if dt =? 7 then 1260 else 24.

(** The [data_type] byte of the package at [offset]. *)
Definition package_data_type (data : bytes) (offset : Z) : result Z :=
  index data (offset + 10).

(** ** Properties of loops, states and logs *)

(** What a loop body must do to follow the reference description with
    [r] returns per entry. *)
Definition follows_entries (data : bytes) (r : nat)
           (body : Z * list point -> result (Z * list point)) : Prop :=
  forall off pts off' pts',
    body (off, pts) = Ok (off', pts') ->
    exists subs,
      decode_all data (entry_positions r off) = Ok subs /\
      pts' = pts ++ valid_points subs /\
      off' = off + 14 * Z.of_nat r.

(** A loop body reads exactly the [14 * r] bytes of its entry. *)
Definition reads_entry (data : bytes) (r : nat)
           (body : Z * list point -> result (Z * list point)) : Prop :=
  forall off pts,
    0 <= off ->
    ((exists s, body (off, pts) = Ok s) <-> off + 14 * Z.of_nat r <= len data).

(** The payloads that are read: the three point layouts and the IMU
    record.  Any other [data_type] is skipped without a read. *)
Definition reads_payload (dt : Z) : bool :=
  (dt =? 2) || (dt =? 4) || (dt =? 7) || (dt =? 6).

(** Points, writer calls and locals free of sentinels. *)
Definition clean (pts : list point) : Prop :=
  Forall (fun p => sentinel_point p = false) pts.

Definition clean_event (ev : event) : Prop :=
  match ev with
  | LasChunk _ _ pts => clean pts
  | LasAll _ pts => clean pts
  | _ => True
  end.

Definition clean_state (st : lvx_state) : Prop :=
  clean (chunk_points st) /\ clean (all_points st) /\
  Forall clean_event (st_log st).

(** ** Counting what was written *)

(** Number of chunk files asked of the point writer. *)
Fixpoint chunks_emitted (log : list event) : Z :=
  match log with
  | [] => 0
  | LasChunk _ _ _ :: rest => 1 + chunks_emitted rest
  | _ :: rest => chunks_emitted rest
  end.

(** The chunk indices, in emission order. *)
Fixpoint chunk_indices (log : list event) : list Z :=
  match log with
  | [] => []
  | LasChunk _ i _ :: rest => i :: chunk_indices rest
  | _ :: rest => chunk_indices rest
  end.

(** Points handed to the point writer over all chunk files. *)
Fixpoint chunk_point_total (log : list event) : Z :=
  match log with
  | [] => 0
  | LasChunk _ _ pts :: rest =>
    Z.of_nat (length pts) + chunk_point_total rest
  | _ :: rest => chunk_point_total rest
  end.

(** Points handed to the point writer for the one file of the whole
    capture ([frames_per_output = 0]). *)
Fixpoint all_point_total (log : list event) : Z :=
  match log with
  | [] => 0
  | LasAll _ pts :: rest => Z.of_nat (length pts) + all_point_total rest
  | _ :: rest => all_point_total rest
  end.

(** [ceil(F / N)] for [N > 0]. *)
Definition ceil_div (F N : Z) : Z := (F + N - 1) / N.

(** The indices [0, 1, ..., n - 1]. *)
Definition first_indices (n : Z) : list Z :=
  map Z.of_nat (seq 0 (Z.to_nat n)).

(** What holds of the locals between two frames, for the chunks written
    since the log was [log0]. *)
Definition chunk_inv (data : bytes) (frames_per_output : Z)
           (log0 : list event) (st : lvx_state) : Prop :=
  0 <= total_frames st /\
  0 <= chunk_index st /\
  chunk_indices (st_log st)
  = chunk_indices log0 ++ first_indices (chunk_index st) /\
  (st_offset st < len data ->
   chunk_index st = total_frames st / frames_per_output) /\
  (len data <= st_offset st ->
   chunk_index st = ceil_div (total_frames st) frames_per_output /\
   chunk_points st = []).

(** The traversal with chunks ([st]) against the traversal with
    [frames_per_output = 0] ([st0]) after the same frames: [c] points
    were in chunk files before the first frame, [log0] is the log of the
    second traversal, which writes nothing before its end. *)
Definition same_points (c : Z) (log0 : list event) (st st0 : lvx_state)
  : Prop :=
  st_offset st = st_offset st0 /\
  chunk_point_total (st_log st) + Z.of_nat (length (chunk_points st))
  = c + Z.of_nat (length (all_points st0)) /\
  st_log st0 = log0.

(** ** Sample captures *)

Definition zeros (n : nat) : bytes := repeat x00 n.

(** A package header with the given [data_type] byte and zero elsewhere. *)
Definition header_of_type (dt : byte) : bytes :=
  zeros 10 ++ [dt] ++ zeros 8.

(** One sub-entry [(x=1000, y=2000, z=3000, reflectivity=50, tag=0)]. *)
Definition sample_entry : bytes :=
  [xe8; x03; x00; x00; xd0; x07; x00; x00; xb8; x0b; x00; x00; x32; x00].

(** A single-return package: the sample entry, then 95 all-zero entries. *)
Definition sample_package : bytes :=
  header_of_type x02 ++ sample_entry ++ zeros (95 * 14).

(** A file header with no device, a frame whose [next_offset] is
    1416 = 29 + 24 + 1363, and the sample package: the capture ends
    where its only frame ends. *)
Definition sample_capture : bytes :=
  zeros 29 ++
  ([x1d] ++ zeros 7) ++ ([x88; x05] ++ zeros 6) ++ zeros 8 ++
  sample_package.

(** The same capture followed by one more byte. *)
Definition trailing_capture : bytes := sample_capture ++ [x00].

Definition sample_point : point := mkPoint 1000 2000 3000 50 1.

(** A double-return package whose first entry holds an all-zero first
    return and a second return [(0, 0, 0, reflectivity=7)]; every other
    entry is all zero. *)
Definition zero_xyz_package : bytes :=
  header_of_type x04 ++ (zeros 14 ++ zeros 12 ++ [x07; x00]) ++
  zeros (47 * 28).

(** ** Frames as chains of packages *)

(** The IMU records a package adds to its frame ([if imu: append]). *)
Definition imu_list (imu : option imu_record) : list imu_record :=
  match imu with
  | Some r => [r]
  | None => []
  end.

(** [package_chain data frame_end offset pts imus off']: the packages
    decoded one after the other from [offset], each starting before
    [frame_end], end at [off'], at or past [frame_end]; [pts] and [imus]
    are their points and IMU records in package order. *)
Inductive package_chain (data : bytes) (frame_end : Z)
  : Z -> list point -> list imu_record -> Z -> Prop :=
| chain_end offset :
    frame_end <= offset ->
    package_chain data frame_end offset [] [] offset
| chain_step offset pts imu off1 pts' imus' off' :
    offset < frame_end ->
    process_package data offset = Ok (pts, imu, off1) ->
    package_chain data frame_end off1 pts' imus' off' ->
    package_chain data frame_end offset (pts ++ pts') (imu_list imu ++ imus')
                  off'.

(** ** Captures as chains of frames *)

(** [traversal data offset frames off' e]: the frames decoded one after
    the other from [offset], each with its 24 header bytes inside the
    buffer and its [next_offset] read 8 bytes after its start; [frames]
    holds the points and the IMU records of each, in frame order.  The
    chain ends at [off'] without an exception ([e = None]) when [off'] is
    at or past the end of the buffer or fewer than 24 bytes remain, and
    with the exception of the first frame that raises otherwise. *)
Inductive traversal (data : bytes)
  : Z -> list (list point * list imu_record) -> Z -> option exn -> Prop :=
| traversal_end offset :
    len data <= offset ->
    traversal data offset [] offset None
| traversal_break offset :
    offset < len data -> len data < offset + 24 ->
    traversal data offset [] offset None
| traversal_raise offset next_offset e :
    offset < len data -> offset + 24 <= len data ->
    unpack_Q (slice data (offset + 8) (offset + 16)) = Ok next_offset ->
    process_frame data (offset + 24) next_offset = Some (Raise e) ->
    traversal data offset [] offset (Some e)
| traversal_step offset next_offset pts imus off1 frames off' e :
    offset < len data -> offset + 24 <= len data ->
    unpack_Q (slice data (offset + 8) (offset + 16)) = Ok next_offset ->
    process_frame data (offset + 24) next_offset = Some (Ok (pts, imus, off1)) ->
    traversal data off1 frames off' e ->
    traversal data offset ((pts, imus) :: frames) off' e.

(** A point whose fields fit the 32-bit and 8-bit fields they were read
    from. *)
Definition in_field_ranges (p : point) : Prop :=
  - 2 ^ 31 <= pt_x p < 2 ^ 31 /\
  - 2 ^ 31 <= pt_y p < 2 ^ 31 /\
  - 2 ^ 31 <= pt_z p < 2 ^ 31 /\
  0 <= pt_intensity p <= 255.

(** ** What the log holds *)

(** The point lists and the IMU lists of the chunk files, in call order. *)
Fixpoint chunk_point_lists (log : list event) : list (list point) :=
  match log with
  | [] => []
  | LasChunk _ _ pts :: rest => pts :: chunk_point_lists rest
  | _ :: rest => chunk_point_lists rest
  end.

Fixpoint chunk_imu_lists (log : list event) : list (list imu_record) :=
  match log with
  | [] => []
  | CsvChunk _ _ imu :: rest => imu :: chunk_imu_lists rest
  | _ :: rest => chunk_imu_lists rest
  end.

(** The IMU lists of the overall files, in call order. *)
Fixpoint overall_imu_lists (log : list event) : list (list imu_record) :=
  match log with
  | [] => []
  | CsvOverall _ imu :: rest => imu :: overall_imu_lists rest
  | _ :: rest => overall_imu_lists rest
  end.

(** The points handed to the point writer, in call order. *)
Fixpoint points_written (log : list event) : list point :=
  match log with
  | [] => []
  | LasChunk _ _ pts :: rest => pts ++ points_written rest
  | LasAll _ pts :: rest => pts ++ points_written rest
  | _ :: rest => points_written rest
  end.

(** A point as the point writer can store it: fields in range, a return
    number from 1 to 3, and not the sentinel. *)
Definition well_formed_point (p : point) : Prop :=
  in_field_ranges p /\
  1 <= pt_return_number p <= 3 /\
  sentinel_point p = false.

(** The points still in the buffers and the points written all have [P]. *)
Definition all_have (P : point -> Prop) (st : lvx_state) : Prop :=
  Forall P (chunk_points st) /\ Forall P (all_points st) /\
  Forall P (points_written (st_log st)).

(** A loop body that does on a longer buffer, [shift] bytes further,
    what another does on a buffer. *)
Definition relocates (shift : Z)
           (body body' : Z * list point -> result (Z * list point)) : Prop :=
  forall off pts off' pts',
    0 <= off ->
    body (off, pts) = Ok (off', pts') ->
    off <= off' /\ body' (shift + off, pts) = Ok (shift + off', pts').

(** The traversal with chunks ([st]) against the traversal with
    [frames_per_output = 0] ([st0]) after the same frames, field by
    field: [pts0] and [imu0] were in chunk files before the first frame. *)
Definition same_frames (pts0 : list point) (imu0 : list imu_record)
           (log0 : list event) (st st0 : lvx_state) : Prop :=
  st_offset st = st_offset st0 /\
  total_frames st = total_frames st0 /\
  concat (chunk_point_lists (st_log st)) ++ chunk_points st
  = pts0 ++ all_points st0 /\
  concat (chunk_imu_lists (st_log st)) ++ chunk_imu st
  = imu0 ++ all_imu st0 /\
  overall_imu st = all_imu st0 /\
  st_log st0 = log0.

(** The locals of a run that started from the log [log ++ _], had it
    started from [log'] instead. *)
Definition with_log (st : lvx_state) (log : list event) : lvx_state :=
  mkState (st_offset st) (total_frames st) (chunk_index st) (overall_imu st)
          (chunk_points st) (chunk_imu st) (all_points st) (all_imu st) log.

(** An IMU package at timestamp 513 whose payload holds the binary32
    values 0.1, 0.2, 0.3, 1.0, 2.0, 3.0. *)
Definition imu_package : bytes :=
  zeros 10 ++ [x06] ++ ([x01; x02] ++ zeros 6) ++
  [xcd; xcc; xcc; x3d] ++ [xcd; xcc; x4c; x3e] ++ [x9a; x99; x99; x3e] ++
  [x00; x00; x80; x3f] ++ [x00; x00; x00; x40] ++ [x00; x00; x40; x40].

Definition imu_sample : imu_record :=
  mkImu 513 0x3dcccccd 0x3e4ccccd 0x3e99999a 0x3f800000 0x40000000 0x40400000.

(** The sample package followed by the IMU package. *)
Definition two_packages : bytes := sample_package ++ imu_package.

(** A double-return package whose first entry holds a first return
    [(1000, 2000, 3000, reflectivity=0)] and an all-zero second return;
    every other entry is all zero. *)
Definition zero_intensity_package : bytes :=
  header_of_type x04 ++
  ([xe8; x03; x00; x00; xd0; x07; x00; x00; xb8; x0b; x00; x00; x00; x00] ++
   zeros 14) ++
  zeros (47 * 28).

(** ** Lemmas on the Python primitives *)

Section Primitives.

Variable data : bytes.

Lemma len_nonneg : 0 <= len data.
Proof. unfold len. lia. Qed.

Lemma byte_val_range (b : byte) : 0 <= byte_val b <= 255.
Proof.
  unfold byte_val. pose proof (Byte.to_N_bounded b). lia.
Qed.

Lemma index_ok_range (i v : Z) :
  index data i = Ok v -> - len data <= i < len data /\ 0 <= v <= 255.
Proof.
  unfold index. intros H.
  destruct (i <? 0) eqn:Hi;
    destruct ((0 <=? _) && (_ <? len data)) eqn:Hr; try discriminate;
    apply andb_true_iff in Hr; destruct Hr as [H0 H1];
    apply Z.leb_le in H0; apply Z.ltb_lt in H1;
    destruct (nth_error data _) eqn:Hn; try discriminate;
    injection H as <-; pose proof (byte_val_range b);
    [apply Z.ltb_lt in Hi | apply Z.ltb_ge in Hi]; lia.
Qed.

Lemma index_in_range (i : Z) :
  0 <= i < len data -> exists v, index data i = Ok v.
Proof.
  intros Hi. unfold index.
  replace (i <? 0) with false by (symmetry; apply Z.ltb_ge; lia).
  replace ((0 <=? i) && (i <? len data)) with true.
  2:{ symmetry. apply andb_true_iff. split;
      [apply Z.leb_le | apply Z.ltb_lt]; lia. }
  destruct (nth_error data (Z.to_nat i)) eqn:Hn; eauto.
  apply nth_error_None in Hn. unfold len in Hi. lia.
Qed.

Lemma slice_length (a b : Z) :
  0 <= a <= b ->
  Z.of_nat (length (slice data a b)) = Z.min (len data) b - Z.min (len data) a.
Proof.
  intros Hab. pose proof len_nonneg. unfold slice, clamp.
  replace (a <? 0) with false by (symmetry; apply Z.ltb_ge; lia).
  replace (b <? 0) with false by (symmetry; apply Z.ltb_ge; lia).
  rewrite length_firstn, length_skipn. unfold len in *. lia.
Qed.

Lemma unpack_uint_slice_ok (w : nat) (a : Z) :
  0 <= a -> (0 < w)%nat ->
  (exists v, unpack_uint w (slice data a (a + Z.of_nat w)) = Ok v)
  <-> a + Z.of_nat w <= len data.
Proof.
  intros Ha Hw. unfold unpack_uint.
  pose proof (slice_length a (a + Z.of_nat w) ltac:(lia)) as Hl.
  destruct (Nat.eqb _ w) eqn:E.
  - apply Nat.eqb_eq in E. split; [intros _; lia | eauto].
  - apply Nat.eqb_neq in E. split; [intros [v Hv]; discriminate | lia].
Qed.

End Primitives.

(** ** The package header *)

Ltac step_bind H :=
  match type of H with
  | bind ?m _ = Ok _ =>
    let E := fresh "E" in
    destruct m eqn:E; cbn [bind] in H; [|discriminate H]
  end.

Lemma read_package_header_inv (data : bytes) (offset off' : Z)
      (h : package_header) :
  read_package_header data offset = Ok (h, off') ->
  off' = offset + 19 /\
  index data offset = Ok (device_index h) /\
  package_data_type data offset = Ok (data_type h).
Proof.
  unfold read_package_header, package_data_type. intros H.
  repeat step_bind H.
  injection H as <- <-. cbn.
  repeat split; try lia; try assumption.
  match goal with
  | E : index data ?o = Ok ?v |- index data ?o' = Ok ?v =>
    replace o' with o by lia; exact E
  end.
Qed.

(** ** The point loops against the reference description *)

Section PointLoops.

Variable data : bytes.

Lemma decode_all_app (ps qs : list (Z * Z)) :
  decode_all data (ps ++ qs) =
  (a <- decode_all data ps ;; b <- decode_all data qs ;; Ok (a ++ b)).
Proof.
  induction ps as [|p ps IH]; cbn [app decode_all].
  - cbn. destruct (decode_all data qs); reflexivity.
  - destruct (decode_at data p); cbn; [|reflexivity].
    rewrite IH. destruct (decode_all data ps); cbn; [|reflexivity].
    destruct (decode_all data qs); reflexivity.
Qed.

Lemma valid_points_app (ps qs : list point) :
  valid_points (ps ++ qs) = valid_points ps ++ valid_points qs.
Proof. apply filter_app. Qed.

Lemma append_valid_spec (points : list point) (x y z refl rn : Z) :
  append_valid points x y z refl rn =
  points ++ valid_points [mkPoint x y z refl rn].
Proof.
  unfold append_valid, valid_points, sentinel_point. cbn.
  destruct (is_sentinel x y z refl); cbn; [now rewrite app_nil_r | reflexivity].
Qed.

Lemma single_follows : follows_entries data 1 (single_return_entry data).
Proof.
  intros off pts off' pts' H. unfold single_return_entry in H.
  step_bind H. destruct a as [[[[x y] z] refl] tag]. injection H as <- <-.
  exists [mkPoint x y z refl 1]. cbn.
  unfold decode_at; cbn. replace (off + 0) with off by lia. rewrite E. cbn.
  split; [reflexivity | split; [apply append_valid_spec | lia]].
Qed.

Lemma double_follows : follows_entries data 2 (double_return_entry data).
Proof.
  intros off pts off' pts' H. unfold double_return_entry in H.
  step_bind H. destruct a as [[[[x1 y1] z1] refl1] tag1].
  step_bind H. destruct a as [[[[x2 y2] z2] refl2] tag2].
  injection H as <- <-.
  exists [mkPoint x1 y1 z1 refl1 1; mkPoint x2 y2 z2 refl2 2]. cbn.
  unfold decode_at; cbn. replace (off + 0) with off by lia.
  rewrite E, E0. cbn.
  split; [reflexivity | split; [|lia]].
  rewrite !append_valid_spec, <- app_assoc, <- valid_points_app. reflexivity.
Qed.

Lemma triple_follows : follows_entries data 3 (triple_return_entry data).
Proof.
  intros off pts off' pts' H. unfold triple_return_entry in H.
  step_bind H. destruct a as [[[[x1 y1] z1] refl1] tag1].
  step_bind H. destruct a as [[[[x2 y2] z2] refl2] tag2].
  step_bind H. destruct a as [[[[x3 y3] z3] refl3] tag3].
  injection H as <- <-.
  exists [mkPoint x1 y1 z1 refl1 1; mkPoint x2 y2 z2 refl2 2;
          mkPoint x3 y3 z3 refl3 3]. cbn.
  unfold decode_at; cbn. replace (off + 0) with off by lia.
  rewrite E, E0, E1. cbn.
  split; [reflexivity | split; [|lia]].
  rewrite !append_valid_spec, <- !app_assoc, <- !valid_points_app. reflexivity.
Qed.

Lemma for_range_follows (r : nat) body :
  follows_entries data r body ->
  forall n off pts off' pts',
    for_range n body (off, pts) = Ok (off', pts') ->
    exists subs,
      decode_all data (sub_positions r n off) = Ok subs /\
      pts' = pts ++ valid_points subs /\
      off' = off + 14 * Z.of_nat r * Z.of_nat n.
Proof.
  intros Hbody. induction n as [|n IH]; intros off pts off' pts' H.
  - cbn in H. injection H as <- <-. exists []. cbn.
    split; [reflexivity | split; [now rewrite app_nil_r | lia]].
  - cbn [for_range] in H. step_bind H. destruct a as [off1 pts1].
    apply Hbody in E. destruct E as (s1 & Hs1 & -> & ->).
    apply IH in H. destruct H as (s2 & Hs2 & -> & ->).
    exists (s1 ++ s2). cbn [sub_positions].
    rewrite decode_all_app, Hs1, Hs2. cbn.
    split; [reflexivity | split; [|lia]].
    now rewrite valid_points_app, app_assoc.
Qed.

End PointLoops.

(** ** What a decoded package is *)

Lemma process_package_inv (data : bytes) (offset off' : Z)
      (pts : list point) (imu : option imu_record) :
  process_package data offset = Ok (pts, imu, off') ->
  exists dt subs,
    package_data_type data offset = Ok dt /\
    off' = offset + 19 + payload_size dt /\
    decode_all data
      (sub_positions (returns_of dt) (entries_of dt) (offset + 19)) = Ok subs /\
    pts = valid_points subs /\
    (dt <> 6 -> imu = None).
Proof.
  unfold process_package. intros H. step_bind H. destruct a as [h off1].
  apply read_package_header_inv in E. destruct E as (-> & _ & Hdt).
  exists (data_type h). unfold process_payload in H.
  unfold returns_of, entries_of, payload_size.
  destruct (data_type h =? 2) eqn:E2;
    [|destruct (data_type h =? 4) eqn:E4;
      [|destruct (data_type h =? 7) eqn:E7;
        [|destruct (data_type h =? 6) eqn:E6]]].
  - step_bind H. destruct a as [o p]. injection H as <- <- <-.
    apply (for_range_follows data 1 _ (single_follows data)) in E.
    destruct E as (subs & Hs & -> & ->). exists subs.
    repeat split; auto; lia.
  - step_bind H. destruct a as [o p]. injection H as <- <- <-.
    apply (for_range_follows data 2 _ (double_follows data)) in E.
    destruct E as (subs & Hs & -> & ->). exists subs.
    repeat split; auto; lia.
  - step_bind H. destruct a as [o p]. injection H as <- <- <-.
    apply (for_range_follows data 3 _ (triple_follows data)) in E.
    destruct E as (subs & Hs & -> & ->). exists subs.
    repeat split; auto; lia.
  - step_bind H. destruct a as [[[[[g1 g2] g3] a1] a2] a3].
    injection H as <- <- <-. exists []. apply Z.eqb_eq in E6.
    repeat split; auto; congruence.
  - injection H as <- <- <-. exists []. repeat split; auto.
Qed.

Lemma payload_size_min (dt : Z) : 24 <= payload_size dt.
Proof.
  unfold payload_size.
  destruct (dt =? 2); [lia|]. destruct (dt =? 4); [lia|].
  destruct (dt =? 7); lia.
Qed.

Lemma process_package_advance (data : bytes) (offset off' : Z)
      (pts : list point) (imu : option imu_record) :
  process_package data offset = Ok (pts, imu, off') ->
  offset + 43 <= off' /\ - len data <= offset < len data.
Proof.
  intros H. pose proof H as H'. apply process_package_inv in H.
  destruct H as (dt & subs & _ & -> & _). pose proof (payload_size_min dt).
  split; [lia|].
  unfold process_package in H'. step_bind H'. destruct a as [h o].
  apply read_package_header_inv in E. destruct E as (_ & Hi & _).
  apply index_ok_range in Hi. lia.
Qed.

Lemma valid_points_not_sentinel (subs : list point) :
  Forall (fun p => sentinel_point p = false) (valid_points subs).
Proof.
  apply Forall_forall. intros p Hp. apply filter_In in Hp.
  destruct Hp as [_ Hp]. now apply negb_true_iff in Hp.
Qed.

Lemma process_package_clean (data : bytes) (offset off' : Z)
      (pts : list point) (imu : option imu_record) :
  process_package data offset = Ok (pts, imu, off') ->
  Forall (fun p => sentinel_point p = false) pts.
Proof.
  intros H. apply process_package_inv in H.
  destruct H as (dt & subs & _ & _ & _ & -> & _).
  apply valid_points_not_sentinel.
Qed.

(** ** The frame loop *)

Section FrameLoop.

Variable data : bytes.

Lemma frame_loop_terminates (fuel : nat) :
  forall offset frame_end fp fi,
    (1 <= fuel)%nat ->
    (- len data <= offset -> len data - offset < Z.of_nat fuel) ->
    frame_loop fuel data offset frame_end fp fi <> None.
Proof.
  induction fuel as [|fuel IH]; intros offset frame_end fp fi H1 Hm; [lia|].
  cbn [frame_loop]. destruct (offset <? frame_end); [|discriminate].
  destruct (process_package data offset) as [[[pts imu] off']|e] eqn:E;
    [|discriminate].
  apply process_package_advance in E. apply IH; lia.
Qed.

Lemma frame_loop_more_fuel (fuel : nat) :
  forall offset frame_end fp fi r k,
    frame_loop fuel data offset frame_end fp fi = Some r ->
    frame_loop (fuel + k) data offset frame_end fp fi = Some r.
Proof.
  induction fuel as [|fuel IH]; intros offset frame_end fp fi r k H.
  - cbn [frame_loop] in H. destruct k; cbn [Nat.add frame_loop];
      destruct (offset <? frame_end); congruence.
  - cbn [Nat.add frame_loop] in *. destruct (offset <? frame_end); [|exact H].
    destruct (process_package data offset) as [[[pts imu] off']|e];
      [|exact H].
    now apply IH.
Qed.

Lemma process_frame_terminates (offset frame_end : Z) :
  process_frame data offset frame_end <> None.
Proof.
  unfold process_frame, frame_fuel. apply frame_loop_terminates; [lia|].
  intros H. unfold len in *. lia.
Qed.

(** A property of points that every decoded package has carries over to
    the frame; the offset never moves back; an exception of the frame is
    the exception of one of its packages. *)
Lemma frame_loop_inv (P : point -> Prop) (fuel : nat) :
  forall offset frame_end fp fi pts imu off',
    (forall o ps i o', process_package data o = Ok (ps, i, o') -> Forall P ps) ->
    Forall P fp ->
    frame_loop fuel data offset frame_end fp fi = Some (Ok (pts, imu, off')) ->
    Forall P pts /\ offset <= off' /\ frame_end <= off'.
Proof.
  induction fuel as [|fuel IH]; intros offset frame_end fp fi pts imu off' HP Hfp H;
    cbn [frame_loop] in H; destruct (offset <? frame_end) eqn:Hlt;
    try discriminate.
  - injection H as <- <- <-. apply Z.ltb_ge in Hlt. repeat split; auto; lia.
  - destruct (process_package data offset) as [[[ps i] o']|e] eqn:E;
      [|discriminate].
    pose proof (HP _ _ _ _ E) as Hps.
    apply process_package_advance in E.
    apply IH in H; auto.
    + destruct H as (? & ? & ?). repeat split; auto; lia.
    + destruct ps; [assumption|]. apply Forall_app. now split.
  - injection H as <- <- <-. apply Z.ltb_ge in Hlt. repeat split; auto; lia.
Qed.

Lemma frame_loop_raise (fuel : nat) :
  forall offset frame_end fp fi e,
    frame_loop fuel data offset frame_end fp fi = Some (Raise e) ->
    exists o, offset <= o < frame_end /\ process_package data o = Raise e.
Proof.
  induction fuel as [|fuel IH]; intros offset frame_end fp fi e H;
    cbn [frame_loop] in H; destruct (offset <? frame_end) eqn:Hlt;
    try discriminate.
  apply Z.ltb_lt in Hlt.
  destruct (process_package data offset) as [[[ps i] o']|e'] eqn:E.
  - apply process_package_advance in E. apply IH in H.
    destruct H as (o & Ho & Hr). exists o. split; [lia|assumption].
  - injection H as <-. exists offset. split; [lia|assumption].
Qed.

End FrameLoop.

(** ** The file traversal *)

Lemma process_frame_inv (P : point -> Prop) (data : bytes)
      (offset frame_end off' : Z) (pts : list point) (imu : list imu_record) :
  (forall o ps i o', process_package data o = Ok (ps, i, o') -> Forall P ps) ->
  process_frame data offset frame_end = Some (Ok (pts, imu, off')) ->
  Forall P pts /\ offset <= off' /\ frame_end <= off'.
Proof.
  intros HP H. unfold process_frame in H.
  eapply frame_loop_inv in H; eauto.
Qed.

Lemma process_frame_clean (data : bytes) (offset frame_end off' : Z)
      (pts : list point) (imu : list imu_record) :
  process_frame data offset frame_end = Some (Ok (pts, imu, off')) ->
  clean pts /\ offset <= off'.
Proof.
  intros H. apply (process_frame_inv (fun p => sentinel_point p = false)) in H.
  - unfold clean. tauto.
  - intros o ps i o'. apply process_package_clean.
Qed.

Section Traversal.

Variable base_name : String.string.
Variable data : bytes.
Variable frames_per_output : Z.

Lemma add_frame_offset st fp fi off :
  st_offset (add_frame base_name data frames_per_output st fp fi off) = off.
Proof.
  unfold add_frame. destruct (frames_per_output =? 0); [reflexivity|].
  destruct (_ || _); reflexivity.
Qed.

Lemma add_frame_clean st fp fi off :
  clean_state st -> clean fp ->
  clean_state (add_frame base_name data frames_per_output st fp fi off).
Proof.
  unfold clean_state, clean, add_frame. intros (Hc & Ha & Hl) Hfp.
  destruct (frames_per_output =? 0); cbn.
  - repeat split; auto. apply Forall_app; auto.
  - destruct (_ || _); cbn; repeat split; auto.
    + apply Forall_app. split; [assumption|].
      repeat constructor. cbn. apply Forall_app; auto.
    + apply Forall_app; auto.
Qed.

Lemma frames_loop_terminates (fuel : nat) :
  forall st,
    0 <= st_offset st ->
    len data - st_offset st < Z.of_nat fuel ->
    frames_loop fuel base_name data frames_per_output st <> None.
Proof.
  induction fuel as [|fuel IH]; intros st H0 Hm;
    cbn [frames_loop];
    destruct (st_offset st <? len data) eqn:Hlt; try discriminate;
    destruct (st_offset st + 24 >? len data) eqn:Hgt; try discriminate.
  - apply Z.ltb_lt in Hlt. lia.
  - destruct (unpack_Q _) as [c|]; cbn [bind]; [|discriminate].
    destruct (unpack_Q _) as [n|]; cbn [bind]; [|discriminate].
    destruct (unpack_Q _) as [f|]; cbn [bind]; [|discriminate].
    destruct (process_frame data _ n) as [[[[fp fi] off']|e]|] eqn:E;
      [| discriminate | now apply process_frame_terminates in E].
    apply process_frame_clean in E. destruct E as [_ Hoff].
    apply IH; rewrite add_frame_offset; lia.
Qed.

Lemma frames_loop_clean (fuel : nat) :
  forall st st' e,
    clean_state st ->
    frames_loop fuel base_name data frames_per_output st = Some (st', e) ->
    clean_state st'.
Proof.
  induction fuel as [|fuel IH]; intros st st' e Hst H;
    cbn [frames_loop] in H;
    destruct (st_offset st <? len data); try (injection H as <- <-; assumption);
    destruct (st_offset st + 24 >? len data);
    try (injection H as <- <-; assumption); try discriminate.
  destruct (unpack_Q _) as [c|]; cbn [bind] in H;
    [|injection H as <- <-; assumption].
  destruct (unpack_Q _) as [n|]; cbn [bind] in H;
    [|injection H as <- <-; assumption].
  destruct (unpack_Q _) as [f|]; cbn [bind] in H;
    [|injection H as <- <-; assumption].
  destruct (process_frame data _ n) as [[[[fp fi] off']|e']|] eqn:E;
    [| injection H as <- <-; assumption | discriminate].
  apply process_frame_clean in E. destruct E as [Hfp _].
  eapply IH; [|exact H]. now apply add_frame_clean.
Qed.

Lemma finish_clean st :
  clean_state st -> clean_state (finish base_name frames_per_output st).
Proof.
  unfold clean_state, finish. intros (Hc & Ha & Hl).
  destruct (frames_per_output =? 0); cbn; repeat split; auto.
  - apply Forall_app. split; [|repeat constructor].
    apply Forall_app. split; [assumption|]. repeat constructor. exact Ha.
  - apply Forall_app. split; [assumption|]. repeat constructor.
Qed.

Lemma parse_header_inv fd dc off :
  parse_header data = Ok (fd, dc, off) ->
  29 <= len data /\ index data 28 = Ok dc /\ off = 29 + dc * 59 /\
  0 <= dc <= 255.
Proof.
  unfold parse_header. intros H. step_bind H. step_bind H.
  injection H as <- <- <-. cbn in E0.
  pose proof (index_ok_range _ _ _ E0). repeat split; auto; lia.
Qed.

Lemma process_lvx_terminates log :
  process_lvx base_name data frames_per_output log <> None.
Proof.
  unfold process_lvx.
  destruct (parse_header data) as [[[fd dc] off]|e] eqn:E; [|discriminate].
  apply parse_header_inv in E. destruct E as (_ & _ & -> & Hdc).
  destruct (frames_loop _ _ _ _ _) as [[st [e|]]|] eqn:F; try discriminate.
  apply frames_loop_terminates in F;
    [contradiction | unfold initial_state; cbn [st_offset]; lia |].
  unfold lvx_fuel, len, initial_state in *. cbn [st_offset]. lia.
Qed.

Lemma process_lvx_clean log st e :
  Forall clean_event log ->
  process_lvx base_name data frames_per_output log = Some (st, e) ->
  Forall clean_event (st_log st).
Proof.
  unfold process_lvx. intros Hlog H.
  destruct (parse_header data) as [[[fd dc] off]|e0].
  - assert (Hinit : clean_state (initial_state off log))
      by (repeat split; [constructor | constructor | exact Hlog]).
    destruct (frames_loop _ _ _ _ _) as [[st0 [e1|]]|] eqn:F;
      try discriminate; injection H as <- <-;
      apply frames_loop_clean in F; try exact Hinit.
    + apply F.
    + apply finish_clean in F. apply F.
  - injection H as <- <-. exact Hlog.
Qed.

End Traversal.

Lemma main_loop_terminates files frames_per_output :
  forall log, main_loop files frames_per_output log <> None.
Proof.
  induction files as [|[name data] rest IH]; intros log; cbn [main_loop];
    [discriminate|].
  destruct (process_lvx name data frames_per_output log) as [[st [e|]]|] eqn:E;
    [discriminate | apply IH | now apply process_lvx_terminates in E].
Qed.

Lemma main_loop_clean files frames_per_output :
  forall log log' e,
    Forall clean_event log ->
    main_loop files frames_per_output log = Some (log', e) ->
    Forall clean_event log'.
Proof.
  induction files as [|[name data] rest IH]; intros log log' e Hlog H;
    cbn [main_loop] in H.
  - injection H as <- <-. exact Hlog.
  - destruct (process_lvx name data frames_per_output log) as [[st [e0|]]|] eqn:E;
      try discriminate; apply process_lvx_clean in E; auto.
    + injection H as <- <-. exact E.
    + eapply IH; eauto.
Qed.

(** ** When a package decodes (offsets inside the buffer) *)

Section Reads.

Variable data : bytes.

Lemma unpack_I_ok (a : Z) :
  0 <= a ->
  (exists v, unpack_I (slice data a (a + 4)) = Ok v) <-> a + 4 <= len data.
Proof.
  intros Ha. exact (unpack_uint_slice_ok data 4 a Ha ltac:(lia)).
Qed.

Lemma unpack_Q_ok (a : Z) :
  0 <= a ->
  (exists v, unpack_Q (slice data a (a + 8)) = Ok v) <-> a + 8 <= len data.
Proof.
  intros Ha. exact (unpack_uint_slice_ok data 8 a Ha ltac:(lia)).
Qed.

Lemma unpack_6f_ok (a : Z) :
  0 <= a ->
  (exists v, unpack_6f (slice data a (a + 24)) = Ok v) <-> a + 24 <= len data.
Proof.
  intros Ha. unfold unpack_6f.
  pose proof (slice_length data a (a + 24) ltac:(lia)) as Hl.
  pose proof (len_nonneg data).
  destruct (Nat.eqb _ 24) eqn:E.
  - apply Nat.eqb_eq in E. split; [intros _; lia | eauto].
  - apply Nat.eqb_neq in E. split; [intros [v Hv]; discriminate | lia].
Qed.

Ltac read_in_range :=
  repeat match goal with
         | |- context [index data ?i] =>
           let v := fresh "v" in
           let Hv := fresh "Hv" in
           destruct (index_in_range data i ltac:(lia)) as [v Hv];
           rewrite Hv; cbn [bind]
         | |- context [unpack_I (slice data ?a _)] =>
           let v := fresh "v" in
           let Hv := fresh "Hv" in
           destruct (proj2 (unpack_I_ok a ltac:(lia)) ltac:(lia)) as [v Hv];
           rewrite Hv; cbn [bind]
         | |- context [unpack_Q (slice data ?a _)] =>
           let v := fresh "v" in
           let Hv := fresh "Hv" in
           destruct (proj2 (unpack_Q_ok a ltac:(lia)) ltac:(lia)) as [v Hv];
           rewrite Hv; cbn [bind]
         end.

Lemma read_package_header_ok (offset : Z) :
  0 <= offset ->
  (exists r, read_package_header data offset = Ok r)
  <-> offset + 19 <= len data.
Proof.
  intros H0. split.
  - intros [r H]. unfold read_package_header in H. repeat step_bind H.
    match goal with
    | E : unpack_Q (slice data ?a _) = Ok _ |- _ =>
      pose proof (proj1 (unpack_Q_ok a ltac:(lia)) (ex_intro _ _ E))
    end. lia.
  - intros Hl. unfold read_package_header. read_in_range. eauto.
Qed.

Lemma read_sub_ok (off : Z) :
  0 <= off ->
  (exists v, read_sub data off = Ok v) <-> off + 14 <= len data.
Proof.
  intros H0. unfold read_sub. split.
  - intros [v H]. repeat step_bind H.
    apply index_ok_range in E0. lia.
  - intros Hl. read_in_range. eauto.
Qed.

Lemma single_reads : reads_entry data 1 (single_return_entry data).
Proof.
  intros off pts H0. unfold single_return_entry.
  pose proof (read_sub_ok off H0) as R. split.
  - intros [s H]. step_bind H. apply R. eauto.
  - intros Hl. destruct (proj2 R ltac:(lia)) as [[[[[x y] z] rf] t] ->].
    cbn. eauto.
Qed.

Lemma double_reads : reads_entry data 2 (double_return_entry data).
Proof.
  intros off pts H0. unfold double_return_entry.
  pose proof (read_sub_ok off H0) as R1.
  pose proof (read_sub_ok (off + 14) ltac:(lia)) as R2. split.
  - intros [s H]. step_bind H. destruct a as [[[[x1 y1] z1] r1] t1].
    step_bind H. assert (off + 14 + 14 <= len data) by (apply R2; eauto). lia.
  - intros Hl. destruct (proj2 R1 ltac:(lia)) as [[[[[x1 y1] z1] r1] t1] ->].
    destruct (proj2 R2 ltac:(lia)) as [[[[[x2 y2] z2] r2] t2] ->].
    cbn. eauto.
Qed.

Lemma triple_reads : reads_entry data 3 (triple_return_entry data).
Proof.
  intros off pts H0. unfold triple_return_entry.
  pose proof (read_sub_ok off H0) as R1.
  pose proof (read_sub_ok (off + 14) ltac:(lia)) as R2.
  pose proof (read_sub_ok (off + 28) ltac:(lia)) as R3. split.
  - intros [s H]. step_bind H. destruct a as [[[[x1 y1] z1] r1] t1].
    step_bind H. destruct a as [[[[x2 y2] z2] r2] t2].
    step_bind H. assert (off + 28 + 14 <= len data) by (apply R3; eauto). lia.
  - intros Hl. destruct (proj2 R1 ltac:(lia)) as [[[[[x1 y1] z1] r1] t1] ->].
    destruct (proj2 R2 ltac:(lia)) as [[[[[x2 y2] z2] r2] t2] ->].
    destruct (proj2 R3 ltac:(lia)) as [[[[[x3 y3] z3] r3] t3] ->].
    cbn. eauto.
Qed.

Lemma for_range_ok (r : nat) body :
  (0 < r)%nat -> follows_entries data r body -> reads_entry data r body ->
  forall n off pts,
    0 <= off ->
    ((exists s, for_range n body (off, pts) = Ok s)
     <-> (n = 0%nat \/ off + 14 * Z.of_nat r * Z.of_nat n <= len data)).
Proof.
  intros Hr Hf Hb. induction n as [|n IH]; intros off pts H0.
  - cbn. split; eauto.
  - cbn [for_range]. split.
    + intros [s H]. step_bind H. destruct a as [off1 pts1].
      pose proof (proj1 (Hb off pts H0) (ex_intro _ _ E)) as Hfirst.
      apply Hf in E. destruct E as (subs & _ & _ & ->).
      assert (H1 : 0 <= off + 14 * Z.of_nat r) by lia.
      pose proof (proj1 (IH _ _ H1) (ex_intro _ _ H)) as H2.
      right. destruct H2 as [->|H2]; lia.
    + intros [Hn|Hl]; [discriminate|].
      destruct (proj2 (Hb off pts H0)) as [[off1 pts1] E]; [nia|].
      rewrite E. cbn [bind].
      apply Hf in E. destruct E as (subs & _ & _ & ->).
      apply IH; [lia|].
      destruct n; [now left | right; nia].
Qed.

End Reads.

Lemma process_payload_ok (data : bytes) (h : package_header) (off : Z) :
  0 <= off ->
  ((exists r, process_payload data h off = Ok r)
   <-> (reads_payload (data_type h) = true ->
        off + payload_size (data_type h) <= len data)).
Proof.
  intros H0. unfold process_payload, reads_payload, payload_size.
  destruct (data_type h =? 2) eqn:E2;
    [|destruct (data_type h =? 4) eqn:E4;
      [|destruct (data_type h =? 7) eqn:E7;
        [|destruct (data_type h =? 6) eqn:E6]]]; cbn [orb].
  - pose proof (for_range_ok data 1 _ ltac:(lia) (single_follows data)
                             (single_reads data) 96 off [] H0) as R.
    split.
    + intros [r H] _. step_bind H.
      destruct (proj1 R) as [?|?]; [eauto | lia | lia].
    + intros Hl. destruct (proj2 R) as [[o p] ->]; [right; lia|]. cbn. eauto.
  - pose proof (for_range_ok data 2 _ ltac:(lia) (double_follows data)
                             (double_reads data) 48 off [] H0) as R.
    split.
    + intros [r H] _. step_bind H.
      destruct (proj1 R) as [?|?]; [eauto | lia | lia].
    + intros Hl. destruct (proj2 R) as [[o p] ->]; [right; lia|]. cbn. eauto.
  - pose proof (for_range_ok data 3 _ ltac:(lia) (triple_follows data)
                             (triple_reads data) 30 off [] H0) as R.
    split.
    + intros [r H] _. step_bind H.
      destruct (proj1 R) as [?|?]; [eauto | lia | lia].
    + intros Hl. destruct (proj2 R) as [[o p] ->]; [right; lia|]. cbn. eauto.
  - pose proof (unpack_6f_ok data off H0) as R. split.
    + intros [r H] _. step_bind H. apply R. eauto.
    + intros Hl. destruct (proj2 R) as [[[[[[g1 g2] g3] a1] a2] a3] ->];
        [lia|]. cbn. eauto.
  - split; [discriminate | eauto].
Qed.

Lemma process_package_ok (data : bytes) (offset : Z) :
  0 <= offset ->
  ((exists r, process_package data offset = Ok r)
   <-> (offset + 19 <= len data /\
        forall dt, package_data_type data offset = Ok dt ->
                   reads_payload dt = true ->
                   offset + 19 + payload_size dt <= len data)).
Proof.
  intros H0. unfold process_package. split.
  - intros [r H]. step_bind H. destruct a as [h off1].
    pose proof (proj1 (read_package_header_ok data offset H0) (ex_intro _ _ E))
      as Hh.
    apply read_package_header_inv in E. destruct E as (-> & _ & Hdt).
    split; [assumption|]. intros dt Hdt' Hr.
    assert (dt = data_type h) as -> by congruence.
    pose proof (proj1 (process_payload_ok data h (offset + 19) ltac:(lia))
                      (ex_intro _ _ H) Hr). lia.
  - intros [Hh Hp].
    destruct (proj2 (read_package_header_ok data offset H0) Hh) as [[h o] E].
    rewrite E. cbn [bind].
    apply read_package_header_inv in E. destruct E as (-> & _ & Hdt).
    apply process_payload_ok; [lia|]. intros Hr.
    specialize (Hp _ Hdt Hr). lia.
Qed.

Lemma result_cases {A : Type} (m : result A) :
  (exists e, m = Raise e) <-> ~ (exists r, m = Ok r).
Proof.
  destruct m as [a|e]; split.
  - intros [e H]; discriminate.
  - intros H. exfalso. apply H. eauto.
  - intros _ [r H]. discriminate.
  - eauto.
Qed.

(** ** Positions and return numbers *)

Lemma in_entry_positions (r k : nat) (base : Z) :
  (k < r)%nat ->
  In (base + 14 * Z.of_nat k, Z.of_nat k + 1) (entry_positions r base).
Proof.
  intros Hk. unfold entry_positions.
  apply (in_map (fun k => (base + 14 * Z.of_nat k, Z.of_nat k + 1))).
  apply in_seq. lia.
Qed.

Lemma in_sub_positions (r cnt : nat) :
  forall base i k,
    (i < cnt)%nat -> (k < r)%nat ->
    In (base + 14 * Z.of_nat r * Z.of_nat i + 14 * Z.of_nat k, Z.of_nat k + 1)
       (sub_positions r cnt base).
Proof.
  induction cnt as [|cnt IH]; intros base i k Hi Hk; [lia|].
  cbn [sub_positions]. apply in_or_app. destruct i as [|i].
  - left. replace (base + 14 * Z.of_nat r * Z.of_nat 0) with base by lia.
    now apply in_entry_positions.
  - right.
    replace (base + 14 * Z.of_nat r * Z.of_nat (S i))
      with (base + 14 * Z.of_nat r + 14 * Z.of_nat r * Z.of_nat i) by lia.
    apply IH; lia.
Qed.

Lemma sub_positions_return_number (r cnt : nat) :
  forall base pos rn,
    In (pos, rn) (sub_positions r cnt base) -> 1 <= rn <= Z.of_nat r.
Proof.
  induction cnt as [|cnt IH]; intros base pos rn H; [contradiction|].
  cbn [sub_positions] in H. apply in_app_or in H. destruct H as [H|H].
  - unfold entry_positions in H. apply in_map_iff in H.
    destruct H as (k & Hk & Hin). injection Hk as <- <-.
    apply in_seq in Hin. lia.
  - eapply IH; eauto.
Qed.

Lemma decode_all_in (data : bytes) (ps : list (Z * Z)) :
  forall subs p,
    decode_all data ps = Ok subs -> In p ps ->
    exists q, decode_at data p = Ok q /\ In q subs.
Proof.
  induction ps as [|p0 ps IH]; intros subs p H Hin; [contradiction|].
  cbn [decode_all] in H. step_bind H. step_bind H. injection H as <-.
  destruct Hin as [->|Hin].
  - exists a. split; [assumption | now left].
  - destruct (IH _ _ eq_refl Hin) as (q & Hq & Hq'). exists q.
    split; [assumption | now right].
Qed.

Lemma decode_all_from (data : bytes) (ps : list (Z * Z)) :
  forall subs q,
    decode_all data ps = Ok subs -> In q subs ->
    exists p, In p ps /\ decode_at data p = Ok q.
Proof.
  induction ps as [|p0 ps IH]; intros subs q H Hin; cbn [decode_all] in H.
  - injection H as <-. contradiction.
  - step_bind H. step_bind H. injection H as <-.
    destruct Hin as [->|Hin].
    + exists p0. split; [now left | assumption].
    + destruct (IH _ _ eq_refl Hin) as (p & Hp & Hp'). exists p.
      split; [now right | assumption].
Qed.

Lemma decode_at_return_number (data : bytes) (p : Z * Z) (q : point) :
  decode_at data p = Ok q -> pt_return_number q = snd p.
Proof.
  unfold decode_at. intros H. step_bind H.
  destruct a as [[[[x y] z] rf] t]. now injection H as <-.
Qed.

Lemma process_package_return_numbers (data : bytes) (offset off' dt : Z)
      (pts : list point) (imu : option imu_record) :
  process_package data offset = Ok (pts, imu, off') ->
  package_data_type data offset = Ok dt ->
  Forall (fun p => 1 <= pt_return_number p <= Z.of_nat (returns_of dt)) pts.
Proof.
  intros H Hdt. apply process_package_inv in H.
  destruct H as (dt' & subs & Hdt' & _ & Hs & -> & _).
  assert (dt' = dt) as -> by congruence.
  apply Forall_forall. intros q Hq. apply filter_In in Hq.
  destruct Hq as [Hq _].
  destruct (decode_all_from _ _ _ _ Hs Hq) as ([pos rn] & Hp & Hd).
  apply decode_at_return_number in Hd. rewrite Hd. cbn.
  eapply sub_positions_return_number; eauto.
Qed.

(** ** Sentinel exclusion *)

(** C1.  No point of a decoded package is the sentinel
    [(0, 0, 0, intensity 0)], for every buffer, offset and [data_type];
    hence none is in a decoded frame, and none is in any point file that a
    batch run asks the writer for. *)
Theorem no_sentinel_in_output :
  (forall data offset pts imu off',
      process_package data offset = Ok (pts, imu, off') ->
      Forall (fun p => sentinel_point p = false) pts) /\
  (forall data offset frame_end pts imu off',
      process_frame data offset frame_end = Some (Ok (pts, imu, off')) ->
      Forall (fun p => sentinel_point p = false) pts) /\
  (forall files frames_per_output log e,
      main files frames_per_output = Some (log, e) ->
      Forall clean_event log).
Proof.
  split; [|split].
  - intros data offset pts imu off'. apply process_package_clean.
  - intros data offset frame_end pts imu off' H.
    now apply process_frame_clean in H.
  - intros files N log e H. unfold main in H.
    eapply main_loop_clean; [constructor | exact H].
Qed.

Lemma no_sentinel_in_output_witness :
  process_package sample_package 0 = Ok ([sample_point], None, 1363) /\
  Forall (fun p => sentinel_point p = false) [sample_point].
Proof.
  assert (H : process_package sample_package 0 = Ok ([sample_point], None, 1363))
    by (vm_compute; reflexivity).
  split; [exact H|].
  exact (proj1 no_sentinel_in_output sample_package 0 _ _ _ H).
Defined.

(** ** Return numbers *)

(** C7.  The points of a decoded package are the non-sentinel ones among
    its sub-entries, each carrying the return number of its position in
    its entry (sub-entry [k] counted from 0 has number [k + 1]), fixed
    before the sentinel filter; so the numbers lie in 1..3, and are 1 for
    [data_type] 2, 1 or 2 for 4, and 1, 2 or 3 for 7. *)
Theorem return_numbers_positional :
  forall data offset pts imu off' dt,
    process_package data offset = Ok (pts, imu, off') ->
    package_data_type data offset = Ok dt ->
    (exists subs,
        decode_all data
          (sub_positions (returns_of dt) (entries_of dt) (offset + 19))
        = Ok subs /\
        pts = valid_points subs) /\
    Forall (fun p => 1 <= pt_return_number p <= 3) pts /\
    (dt = 2 -> Forall (fun p => pt_return_number p = 1) pts) /\
    (dt = 4 ->
     Forall (fun p => pt_return_number p = 1 \/ pt_return_number p = 2) pts) /\
    (dt = 7 ->
     Forall (fun p => pt_return_number p = 1 \/ pt_return_number p = 2 \/
                      pt_return_number p = 3) pts).
Proof.
  intros data offset pts imu off' dt H Hdt.
  pose proof (process_package_return_numbers _ _ _ _ _ _ H Hdt) as Hrn.
  apply process_package_inv in H.
  destruct H as (dt' & subs & Hdt' & _ & Hs & -> & _).
  assert (dt' = dt) as -> by congruence.
  split; [exists subs; auto|].
  split; [|split; [|split]].
  - eapply Forall_impl; [|exact Hrn]. cbn. intros p Hp.
    assert (Z.of_nat (returns_of dt) <= 3); [|lia].
    unfold returns_of. destruct (dt =? 2), (dt =? 4), (dt =? 7); cbn; lia.
  - intros ->. eapply Forall_impl; [|exact Hrn]. cbn. intros p Hp. lia.
  - intros ->. eapply Forall_impl; [|exact Hrn]. cbn. intros p Hp. lia.
  - intros ->. eapply Forall_impl; [|exact Hrn]. cbn. intros p Hp. lia.
Qed.

Lemma return_numbers_positional_witness :
  process_package zero_xyz_package 0 = Ok ([mkPoint 0 0 0 7 2], None, 1363) /\
  Forall (fun p => pt_return_number p = 1 \/ pt_return_number p = 2)
         [mkPoint 0 0 0 7 2].
Proof.
  assert (H : process_package zero_xyz_package 0
              = Ok ([mkPoint 0 0 0 7 2], None, 1363))
    by (vm_compute; reflexivity).
  assert (Hdt : package_data_type zero_xyz_package 0 = Ok 4)
    by (vm_compute; reflexivity).
  split; [exact H|].
  exact (proj1 (proj2 (proj2 (proj2
           (return_numbers_positional _ _ _ _ _ _ H Hdt)))) eq_refl).
Defined.

Lemma is_sentinel_false_iff (x y z reflectivity : Z) :
  is_sentinel x y z reflectivity = false
  <-> ~ (x = 0 /\ y = 0 /\ z = 0 /\ reflectivity = 0).
Proof.
  unfold is_sentinel.
  destruct (Z.eqb_spec x 0), (Z.eqb_spec y 0), (Z.eqb_spec z 0),
    (Z.eqb_spec reflectivity 0); cbn; split; intros H;
    try discriminate; try reflexivity; try tauto; intros (? & ? & ? & ?);
    contradiction.
Qed.

(** C10.  A sub-entry with [x = y = z = 0] and a reflectivity other than
    0 is decoded into a point, with the return number of its position
    [k + 1]; and a sub-entry is left out only when all four of x, y, z
    and reflectivity are 0: the sub-entry at position [k] of an entry is
    among the points of the package, as read and with return number
    [k + 1], exactly when one of its four fields is not 0. *)
Theorem zero_xyz_nonzero_intensity_kept :
  forall data offset pts imu off' dt (i k : nat) x y z reflectivity tag,
    process_package data offset = Ok (pts, imu, off') ->
    package_data_type data offset = Ok dt ->
    (i < entries_of dt)%nat -> (k < returns_of dt)%nat ->
    read_sub data (offset + 19 + 14 * Z.of_nat (returns_of dt) * Z.of_nat i
                   + 14 * Z.of_nat k)
    = Ok (x, y, z, reflectivity, tag) ->
    (x = 0 -> y = 0 -> z = 0 -> reflectivity <> 0 ->
     In (mkPoint 0 0 0 reflectivity (Z.of_nat k + 1)) pts) /\
    (In (mkPoint x y z reflectivity (Z.of_nat k + 1)) pts
     <-> ~ (x = 0 /\ y = 0 /\ z = 0 /\ reflectivity = 0)).
Proof.
  intros data offset pts imu off' dt i k x y z refl tag H Hdt Hi Hk Hsub.
  pose proof (process_package_clean _ _ _ _ _ H) as Hclean.
  apply process_package_inv in H.
  destruct H as (dt' & subs & Hdt' & _ & Hs & -> & _).
  assert (dt' = dt) as -> by congruence.
  pose proof (in_sub_positions _ _ (offset + 19) i k Hi Hk) as Hin.
  destruct (decode_all_in _ _ _ _ Hs Hin) as (q & Hq & Hq').
  unfold decode_at in Hq. cbn [fst snd] in Hq. rewrite Hsub in Hq.
  cbn in Hq. injection Hq as <-.
  assert (Hiff : In (mkPoint x y z refl (Z.of_nat k + 1)) (valid_points subs)
                 <-> ~ (x = 0 /\ y = 0 /\ z = 0 /\ refl = 0)).
  { rewrite <- is_sentinel_false_iff. split.
    - intros Hp. rewrite Forall_forall in Hclean. exact (Hclean _ Hp).
    - intros Hv. apply filter_In. split; [assumption|].
      unfold sentinel_point. cbn. now rewrite Hv. }
  split; [|exact Hiff].
  intros -> -> -> Hrefl. apply Hiff. intros (_ & _ & _ & Hr). contradiction.
Qed.

Lemma zero_xyz_nonzero_intensity_kept_witness :
  In (mkPoint 0 0 0 7 2) [mkPoint 0 0 0 7 2] /\
  In (mkPoint 1000 2000 3000 0 1) [mkPoint 1000 2000 3000 0 1].
Proof.
  split.
  - apply (proj1 (zero_xyz_nonzero_intensity_kept zero_xyz_package 0
                    [mkPoint 0 0 0 7 2] None 1363 4 0%nat 1%nat 0 0 0 7 0
                    ltac:(vm_compute; reflexivity)
                    ltac:(vm_compute; reflexivity)
                    ltac:(vm_compute; lia) ltac:(vm_compute; lia)
                    ltac:(vm_compute; reflexivity)));
      [reflexivity | reflexivity | reflexivity | lia].
  - apply (proj2 (zero_xyz_nonzero_intensity_kept zero_intensity_package 0
                    [mkPoint 1000 2000 3000 0 1] None 1363 4 0%nat 0%nat
                    1000 2000 3000 0 0
                    ltac:(vm_compute; reflexivity)
                    ltac:(vm_compute; reflexivity)
                    ltac:(vm_compute; lia) ltac:(vm_compute; lia)
                    ltac:(vm_compute; reflexivity))).
    lia.
Defined.

(** ** Offsets *)

(** C8, as the claim states it, fails: a package of an unrecognized
    [data_type] at offset 0 ends at 43 = 19 + 24, not at 16 + 24. *)
Lemma package_offset_counterexample :
  process_package (zeros 43) 0 = Ok ([], None, 43) /\
  43 <> 0 + 16 + payload_size 0.
Proof.
  split; [vm_compute; reflexivity | vm_compute; discriminate].
Qed.

(** C8, amended.  A decoded package ends at [offset + 19 + payload_size dt]:
    the 19 header bytes, then 1344 bytes for [data_type] 2 and 4, 1260 for
    7, 24 for 6 and for any other value, whatever the payload holds; and
    the package does decode when that much lies inside the buffer. *)
Theorem package_offset_advance :
  forall data offset dt,
    package_data_type data offset = Ok dt ->
    (forall pts imu off',
        process_package data offset = Ok (pts, imu, off') ->
        off' = offset + 19 + payload_size dt) /\
    (0 <= offset -> offset + 19 + payload_size dt <= len data ->
     exists pts imu,
       process_package data offset
       = Ok (pts, imu, offset + 19 + payload_size dt)).
Proof.
  intros data offset dt Hdt. split.
  - intros pts imu off' H. apply process_package_inv in H.
    destruct H as (dt' & subs & Hdt' & -> & _). congruence.
  - intros H0 Hl. pose proof (payload_size_min dt) as Hmin.
    destruct (proj2 (process_package_ok data offset H0)) as [[[pts imu] off'] H].
    + split; [lia|]. intros dt' Hdt' _. congruence.
    + exists pts, imu. rewrite H. pose proof H as H'.
      apply process_package_inv in H'.
      destruct H' as (dt' & subs & Hdt' & -> & _). congruence.
Qed.

Lemma package_offset_advance_witness :
  package_data_type sample_package 0 = Ok 2 /\
  1363 = 0 + 19 + payload_size 2.
Proof.
  assert (Hdt : package_data_type sample_package 0 = Ok 2)
    by (vm_compute; reflexivity).
  split; [exact Hdt|].
  apply (proj1 (package_offset_advance sample_package 0 2 Hdt)
               [sample_point] None 1363).
  vm_compute; reflexivity.
Defined.

Lemma frames_loop_offset (fuel : nat) base_name data frames_per_output :
  forall st st' e,
    frames_loop fuel base_name data frames_per_output st = Some (st', e) ->
    st_offset st <= st_offset st'.
Proof.
  induction fuel as [|fuel IH]; intros st st' e H;
    cbn [frames_loop] in H;
    destruct (st_offset st <? len data); try (injection H as <- <-; lia);
    destruct (st_offset st + 24 >? len data);
    try (injection H as <- <-; lia); try discriminate.
  destruct (unpack_Q _) as [c|]; cbn [bind] in H;
    [|injection H as <- <-; lia].
  destruct (unpack_Q _) as [n|]; cbn [bind] in H;
    [|injection H as <- <-; lia].
  destruct (unpack_Q _) as [f|]; cbn [bind] in H;
    [|injection H as <- <-; lia].
  destruct (process_frame data _ n) as [[[[fp fi] off']|e']|] eqn:E;
    [| injection H as <- <-; lia | discriminate].
  apply process_frame_clean in E. destruct E as [_ Hoff].
  apply IH in H. rewrite add_frame_offset in H. lia.
Qed.

(** C9.  A decoded package ends after its start, at least 40 bytes later;
    a decoded frame ends at or after its start, and so does the traversal
    of the frames of a file; the package loop of a frame ends for every
    buffer, start and end bound (with [frame_fuel] iterations or more, and
    to the same result), and so does the traversal of a file. *)
Theorem offsets_increase_and_loops_terminate :
  (forall data offset pts imu off',
      process_package data offset = Ok (pts, imu, off') ->
      offset < off' /\ 40 <= off' - offset) /\
  (forall data offset frame_end pts imu off',
      process_frame data offset frame_end = Some (Ok (pts, imu, off')) ->
      offset <= off') /\
  (forall fuel base_name data frames_per_output st st' e,
      frames_loop fuel base_name data frames_per_output st = Some (st', e) ->
      st_offset st <= st_offset st') /\
  (forall data offset frame_end,
      exists r,
        process_frame data offset frame_end = Some r /\
        forall k,
          frame_loop (frame_fuel data + k) data offset frame_end [] []
          = Some r) /\
  (forall base_name data frames_per_output log,
      exists r, process_lvx base_name data frames_per_output log = Some r).
Proof.
  split; [|split; [|split; [|split]]].
  - intros data offset pts imu off' H.
    apply process_package_advance in H. lia.
  - intros data offset frame_end pts imu off' H.
    apply process_frame_clean in H. tauto.
  - intros fuel base_name data N st st' e. apply frames_loop_offset.
  - intros data offset frame_end.
    destruct (process_frame data offset frame_end) as [r|] eqn:E.
    + exists r. split; [reflexivity|]. intros k.
      now apply frame_loop_more_fuel.
    + now apply process_frame_terminates in E.
  - intros base_name data N log.
    destruct (process_lvx base_name data N log) as [r|] eqn:E; eauto.
    now apply process_lvx_terminates in E.
Qed.

Lemma offsets_increase_and_loops_terminate_witness :
  0 < 1363 /\ 40 <= 1363 - 0.
Proof.
  apply (proj1 offsets_increase_and_loops_terminate
               sample_package 0 [sample_point] None 1363).
  vm_compute; reflexivity.
Defined.

(** ** Exceptions *)

(** C3, as the claim states it, fails.  A package that ends past the
    [frame_end] of its frame is decoded without an exception (here the
    frame is to end at 100 and the package ends at 1363); and a package of
    an unrecognized [data_type] is skipped without an exception although
    its 24 payload bytes lie past the end of the buffer. *)
Lemma bounds_error_counterexample :
  (process_frame sample_package 0 100 = Some (Ok ([sample_point], [], 1363))
   /\ 100 < 1363) /\
  (process_package (zeros 19) 0 = Ok ([], None, 43) /\ len (zeros 19) < 43).
Proof.
  repeat split; vm_compute; reflexivity.
Qed.

(** C3, amended.  Decoding a package at an offset inside the buffer
    raises exactly when a read goes past the end of the buffer: the 19
    header bytes, or the payload of a [data_type] 2, 4, 7 or 6 package.
    An unrecognized [data_type] is skipped without a read, and there is no
    check against the end of the frame: a frame raises only the exception
    of one of its package decodes. *)
Theorem decode_raises_iff_buffer_overrun :
  forall data offset,
    0 <= offset ->
    ((exists e, process_package data offset = Raise e)
     <-> (len data < offset + 19 \/
          exists dt, package_data_type data offset = Ok dt /\
                     reads_payload dt = true /\
                     len data < offset + 19 + payload_size dt)) /\
    (forall frame_end e,
        process_frame data offset frame_end = Some (Raise e) ->
        exists o, offset <= o < frame_end /\ process_package data o = Raise e).
Proof.
  intros data offset H0. split.
  - rewrite result_cases, (process_package_ok data offset H0). split.
    + intros Hn. destruct (Z_lt_le_dec (len data) (offset + 19)) as [|Hh];
        [now left | right].
      destruct (index_in_range data (offset + 10) ltac:(lia)) as [dt Hdt].
      exists dt. split; [exact Hdt|].
      destruct (reads_payload dt) eqn:Hr.
      * split; [reflexivity|].
        destruct (Z_lt_le_dec (len data) (offset + 19 + payload_size dt))
          as [|Hp]; [assumption|].
        exfalso. apply Hn. split; [assumption|].
        intros dt' Hdt' _. unfold package_data_type in Hdt'. congruence.
      * exfalso. apply Hn. split; [assumption|].
        intros dt' Hdt' Hr'. unfold package_data_type in Hdt'. congruence.
    + intros [Hs|(dt & Hdt & Hr & Hs)] [Hh Hp]; [lia|].
      specialize (Hp dt Hdt Hr). lia.
  - intros frame_end e H. unfold process_frame in H.
    now apply frame_loop_raise in H.
Qed.

Lemma decode_raises_iff_buffer_overrun_witness :
  0 <= 0 /\ exists e, process_package (zeros 18) 0 = Raise e.
Proof.
  split; [lia|].
  apply (proj1 (decode_raises_iff_buffer_overrun (zeros 18) 0 ltac:(lia))).
  left. vm_compute. reflexivity.
Defined.

(** C4, as the claim states it, fails: a 29-byte buffer that declares one
    device is shorter than 29 + 59 bytes, and the header is parsed. *)
Lemma parse_header_counterexample :
  parse_header (zeros 28 ++ [x01]) = Ok (0, 1, 88) /\
  len (zeros 28 ++ [x01]) < 24 + 4 + 1 + 1 * 59.
Proof.
  split; vm_compute; reflexivity.
Qed.

(** C4, amended.  The header parse raises exactly when the buffer is
    shorter than the 29 fixed bytes; otherwise it returns the frame
    duration, the device count read at byte 28 and the offset
    [29 + device_count * 59], whether or not the device table lies inside
    the buffer. *)
Theorem parse_header_fails_iff_short :
  forall data,
    ((exists e, parse_header data = Raise e) <-> len data < 29) /\
    (29 <= len data ->
     exists frame_duration device_count,
       index data 28 = Ok device_count /\
       parse_header data
       = Ok (frame_duration, device_count, 24 + 4 + 1 + device_count * 59)).
Proof.
  intros data.
  assert (Hok : 29 <= len data ->
                exists fd dc, index data 28 = Ok dc /\
                  parse_header data = Ok (fd, dc, 24 + 4 + 1 + dc * 59)).
  { intros Hl. unfold parse_header.
    destruct (proj2 (unpack_I_ok data 24 ltac:(lia)) ltac:(lia)) as [fd Hfd].
    destruct (index_in_range data 28 ltac:(lia)) as [dc Hdc].
    exists fd, dc. split; [assumption|].
    cbn [Z.add Pos.add Pos.succ]. cbn in Hfd. rewrite Hfd. cbn [bind].
    cbn in Hdc. rewrite Hdc. reflexivity. }
  split; [|exact Hok]. split.
  - intros [e He]. destruct (Z_lt_le_dec (len data) 29) as [|Hl];
      [assumption|].
    destruct (Hok Hl) as (fd & dc & _ & H). congruence.
  - intros Hl. apply result_cases. intros [[[fd dc] off] H].
    apply parse_header_inv in H. lia.
Qed.

Lemma parse_header_fails_iff_short_witness :
  29 <= len (zeros 29) /\
  exists frame_duration device_count,
    index (zeros 29) 28 = Ok device_count /\
    parse_header (zeros 29)
    = Ok (frame_duration, device_count, 24 + 4 + 1 + device_count * 59).
Proof.
  assert (H : 29 <= len (zeros 29)) by (vm_compute; discriminate).
  split; [exact H|].
  exact (proj2 (parse_header_fails_iff_short (zeros 29)) H).
Defined.

(** ** The batch *)

Lemma main_loop_app pre rest frames_per_output :
  forall log log',
    main_loop pre frames_per_output log = Some (log', None) ->
    main_loop (pre ++ rest) frames_per_output log
    = main_loop rest frames_per_output log'.
Proof.
  induction pre as [|[name data] pre IH]; intros log log' H;
    cbn [main_loop app] in *.
  - now injection H as <-.
  - destruct (process_lvx name data frames_per_output log) as [[st [e|]]|];
      try discriminate.
    now apply IH.
Qed.




(** ** Chunks *)

(** C5 at a capture with a byte after its only frame.  With two frames
    per chunk, one frame is decoded, the traversal ends without an
    exception, and no chunk is written, where [ceil (1 / 2) = 1]. *)
Theorem chunk_count_trailing_byte :
  exists st,
    process_lvx "cap"%string trailing_capture 2 [] = Some (st, None) /\
    total_frames st = 1 /\
    chunk_index st = 0 /\
    chunks_emitted (st_log st) = 0 /\
    ceil_div (total_frames st) 2 = 1.
Proof.
  eexists. split; [vm_compute; reflexivity|].
  repeat split.
Qed.

(** C6 at the same capture.  With two frames per chunk the chunk files
    hold no point; with [frames_per_output = 0] the one file of the whole
    capture holds the decoded point. *)
Theorem chunk_points_trailing_byte :
  exists st2 st0,
    process_lvx "cap"%string trailing_capture 2 [] = Some (st2, None) /\
    process_lvx "cap"%string trailing_capture 0 [] = Some (st0, None) /\
    chunk_point_total (st_log st2) = 0 /\
    chunk_points st2 = [sample_point] /\
    st_log st0 = [LasAll "cap"%string [sample_point]; CsvAll "cap"%string [];
                  CsvOverall "cap"%string []] /\
    all_point_total (st_log st0) = 1.
Proof.
  eexists. eexists.
  split; [vm_compute; reflexivity|].
  split; [vm_compute; reflexivity|].
  repeat split.
Qed.

(** ** Chunking in general *)

Lemma div_succ_multiple (t n : Z) :
  0 < n -> (t + 1) mod n = 0 -> (t + 1) / n = t / n + 1.
Proof.
  intros Hn Hm.
  pose proof (Z.div_mod (t + 1) n ltac:(lia)) as H1.
  pose proof (Z.div_mod t n ltac:(lia)) as H2.
  pose proof (Z.mod_pos_bound t n Hn). nia.
Qed.

Lemma div_succ_same (t n : Z) :
  0 < n -> (t + 1) mod n <> 0 -> (t + 1) / n = t / n.
Proof.
  intros Hn Hm.
  pose proof (Z.div_mod (t + 1) n ltac:(lia)) as H1.
  pose proof (Z.div_mod t n ltac:(lia)) as H2.
  pose proof (Z.mod_pos_bound t n Hn).
  pose proof (Z.mod_pos_bound (t + 1) n Hn). nia.
Qed.

Lemma ceil_div_succ (t n : Z) :
  0 < n -> ceil_div (t + 1) n = t / n + 1.
Proof.
  intros Hn. unfold ceil_div.
  replace (t + 1 + n - 1) with (t + 1 * n) by lia.
  rewrite Z.div_add by lia. reflexivity.
Qed.

Lemma chunk_indices_app (l1 l2 : list event) :
  chunk_indices (l1 ++ l2) = chunk_indices l1 ++ chunk_indices l2.
Proof.
  induction l1 as [|ev l1 IH]; [reflexivity|].
  destruct ev; cbn; rewrite IH; reflexivity.
Qed.


Lemma chunk_point_total_app (l1 l2 : list event) :
  chunk_point_total (l1 ++ l2) = chunk_point_total l1 + chunk_point_total l2.
Proof.
  induction l1 as [|ev l1 IH]; [reflexivity|].
  destruct ev; cbn [app chunk_point_total]; lia.
Qed.

Lemma all_point_total_app (l1 l2 : list event) :
  all_point_total (l1 ++ l2) = all_point_total l1 + all_point_total l2.
Proof.
  induction l1 as [|ev l1 IH]; [reflexivity|].
  destruct ev; cbn [app all_point_total]; lia.
Qed.

Lemma first_indices_succ (n : Z) :
  0 <= n -> first_indices (n + 1) = first_indices n ++ [n].
Proof.
  intros Hn. unfold first_indices.
  replace (Z.to_nat (n + 1)) with (S (Z.to_nat n)) by lia.
  rewrite seq_S, map_app. cbn. f_equal. f_equal. lia.
Qed.

Section Chunking.

Variable base_name : String.string.
Variable data : bytes.
Variable frames_per_output : Z.
Hypothesis positive : 0 < frames_per_output.

Lemma add_frame_chunk_inv log0 st fp fi off :
  st_offset st < len data ->
  chunk_inv data frames_per_output log0 st ->
  chunk_inv data frames_per_output log0 (add_frame base_name data frames_per_output st fp fi off).
Proof.
  intros Hlt (Htf & Hci & Hidx & Hfloor & _). specialize (Hfloor Hlt).
  unfold chunk_inv, add_frame.
  replace (frames_per_output =? 0) with false by (symmetry; apply Z.eqb_neq; lia).
  destruct (Z.eqb_spec ((total_frames st + 1) mod frames_per_output) 0)
    as [Hm|Hm];
    (destruct (off >=? len data) eqn:Hoff;
     rewrite Z.geb_leb in Hoff;
     [apply Z.leb_le in Hoff | apply Z.leb_gt in Hoff]);
    cbn [orb total_frames chunk_index st_log st_offset chunk_points];
    (split; [lia|]); (split; [lia|]).
  - split; [|split; [lia|]].
    + rewrite chunk_indices_app, Hidx, first_indices_succ, <- app_assoc by lia.
      reflexivity.
    + intros _. split; [|reflexivity].
      rewrite ceil_div_succ by lia. lia.
  - split; [|split; [|lia]].
    + rewrite chunk_indices_app, Hidx, first_indices_succ, <- app_assoc by lia.
      reflexivity.
    + intros _. rewrite div_succ_multiple by lia. lia.
  - split; [|split; [lia|]].
    + rewrite chunk_indices_app, Hidx, first_indices_succ, <- app_assoc by lia.
      reflexivity.
    + intros _. split; [|reflexivity].
      rewrite ceil_div_succ by lia. lia.
  - split; [exact Hidx|]. split; [|lia].
    intros _. rewrite div_succ_same by lia. exact Hfloor.
Qed.

Lemma frames_loop_chunk_inv log0 (fuel : nat) :
  forall st st' e,
    chunk_inv data frames_per_output log0 st ->
    frames_loop fuel base_name data frames_per_output st = Some (st', e) ->
    chunk_inv data frames_per_output log0 st'.
Proof.
  induction fuel as [|fuel IH]; intros st st' e Hst H;
    cbn [frames_loop] in H;
    destruct (st_offset st <? len data) eqn:Hlt;
    try (injection H as <- <-; assumption);
    destruct (st_offset st + 24 >? len data);
    try (injection H as <- <-; assumption); try discriminate.
  apply Z.ltb_lt in Hlt.
  destruct (unpack_Q _) as [c|]; cbn [bind] in H;
    [|injection H as <- <-; assumption].
  destruct (unpack_Q _) as [n|]; cbn [bind] in H;
    [|injection H as <- <-; assumption].
  destruct (unpack_Q _) as [f|]; cbn [bind] in H;
    [|injection H as <- <-; assumption].
  destruct (process_frame data _ n) as [[[[fp fi] off']|e']|];
    [| injection H as <- <-; assumption | discriminate].
  eapply IH; [|exact H]. now apply add_frame_chunk_inv.
Qed.


End Chunking.

(** With [frames_per_output = 0] the frame loop writes nothing; the one
    point file and the IMU files of the whole capture are written once,
    after the last frame, with everything that was decoded. *)
Lemma frames_loop_unchunked_log (fuel : nat) base_name data :
  forall st st' e,
    frames_loop fuel base_name data 0 st = Some (st', e) ->
    st_log st' = st_log st.
Proof.
  induction fuel as [|fuel IH]; intros st st' e H;
    cbn [frames_loop] in H;
    destruct (st_offset st <? len data);
    try (injection H as <- <-; reflexivity);
    destruct (st_offset st + 24 >? len data);
    try (injection H as <- <-; reflexivity); try discriminate.
  destruct (unpack_Q _) as [c|]; cbn [bind] in H;
    [|injection H as <- <-; reflexivity].
  destruct (unpack_Q _) as [n|]; cbn [bind] in H;
    [|injection H as <- <-; reflexivity].
  destruct (unpack_Q _) as [f|]; cbn [bind] in H;
    [|injection H as <- <-; reflexivity].
  destruct (process_frame data _ n) as [[[[fp fi] off']|e']|];
    [| injection H as <- <-; reflexivity | discriminate].
  apply IH in H. rewrite H. reflexivity.
Qed.

(** With [frames_per_output = 0] a capture processed without an
    exception makes exactly three writer calls, after the last frame: the
    point file and the IMU file of the whole capture, with all the points
    and IMU records decoded, then the overall IMU file with the same
    records. *)
Lemma unchunked_flushes_once base_name data log st :
  process_lvx base_name data 0 log = Some (st, None) ->
  st_log st = log ++ [LasAll base_name (all_points st);
                      CsvAll base_name (all_imu st);
                      CsvOverall base_name (all_imu st)].
Proof.
  unfold process_lvx. intros H.
  destruct (parse_header data) as [[[fd dc] off]|e0]; [|discriminate].
  destruct (frames_loop _ _ _ _ _) as [[st1 [e1|]]|] eqn:F; try discriminate.
  injection H as <-. apply frames_loop_unchunked_log in F.
  unfold finish. cbn. rewrite F, <- app_assoc. reflexivity.
Qed.

Section SamePoints.

Variable base_name : String.string.
Variable data : bytes.
Variable frames_per_output : Z.
Hypothesis chunked : frames_per_output <> 0.

Lemma add_frame_same_points c log0 st st0 fp fi off :
  same_points c log0 st st0 ->
  same_points c log0
    (add_frame base_name data frames_per_output st fp fi off)
    (add_frame base_name data 0 st0 fp fi off).
Proof.
  intros (Hoff & Hpts & Hlog). unfold same_points, add_frame.
  replace (frames_per_output =? 0) with false
    by (symmetry; now apply Z.eqb_neq).
  cbn [Z.eqb]. destruct (_ || _);
    cbn [st_offset st_log chunk_points all_points];
    rewrite ?chunk_point_total_app, ?length_app;
    cbn [chunk_point_total length]; rewrite ?length_app;
    repeat split; try assumption; lia.
Qed.

Lemma frames_loop_same_points c log0 (fuel : nat) :
  forall st st0 st' e,
    same_points c log0 st st0 ->
    frames_loop fuel base_name data frames_per_output st = Some (st', e) ->
    exists st0',
      frames_loop fuel base_name data 0 st0 = Some (st0', e) /\
      same_points c log0 st' st0'.
Proof.
  induction fuel as [|fuel IH]; intros st st0 st' e Hsame H;
    pose proof Hsame as (Hoff & _);
    cbn [frames_loop] in *; rewrite <- Hoff;
    destruct (st_offset st <? len data);
    try (injection H as <- <-; eauto);
    destruct (st_offset st + 24 >? len data);
    try (injection H as <- <-; eauto); try discriminate.
  destruct (unpack_Q _) as [c1|]; cbn [bind] in *;
    [|injection H as <- <-; eauto].
  destruct (unpack_Q _) as [n|]; cbn [bind] in *;
    [|injection H as <- <-; eauto].
  destruct (unpack_Q _) as [f|]; cbn [bind] in *;
    [|injection H as <- <-; eauto].
  destruct (process_frame data _ n) as [[[[fp fi] off']|e']|];
    [| injection H as <- <-; eauto | discriminate].
  eapply IH; [|exact H]. now apply add_frame_same_points.
Qed.

(** For every capture that decodes without an exception with
    [frames_per_output = N <> 0], the capture decodes with
    [frames_per_output = 0] too, and the points of the one file of the
    whole capture are the points of the chunk files together with the
    points still in [chunk_points] when the traversal ended. *)
Lemma chunk_points_in_general log log0 st :
  process_lvx base_name data frames_per_output log = Some (st, None) ->
  exists st0,
    process_lvx base_name data 0 log0 = Some (st0, None) /\
    chunk_point_total (st_log st) - chunk_point_total log
    + Z.of_nat (length (chunk_points st))
    = all_point_total (st_log st0) - all_point_total log0.
Proof.
  unfold process_lvx. intros H.
  destruct (parse_header data) as [[[fd dc] off]|e0]; [|discriminate].
  destruct (frames_loop _ _ _ frames_per_output _) as [[st1 [e1|]]|] eqn:F;
    try discriminate.
  injection H as <-.
  apply (frames_loop_same_points (chunk_point_total log) log0 _ _
           (initial_state off log0)) in F.
  2:{ unfold same_points, initial_state. cbn. repeat split; lia. }
  destruct F as (st0 & -> & _ & Hpts & Hlog).
  eexists. split; [reflexivity|].
  unfold finish. cbn [Z.eqb].
  replace (frames_per_output =? 0) with false
    by (symmetry; now apply Z.eqb_neq).
  cbn [st_log chunk_points].
  rewrite chunk_point_total_app, !all_point_total_app, Hlog.
  cbn [chunk_point_total all_point_total]. lia.
Qed.

End SamePoints.

(** With [frames_per_output = N > 0], when the traversal ended at or past
    the end of the buffer nothing is left in [chunk_points]: the chunk
    files hold as many points as the file written with
    [frames_per_output = 0]. *)
Lemma chunk_points_without_trailing_bytes base_name data frames_per_output st :
  0 < frames_per_output ->
  process_lvx base_name data frames_per_output [] = Some (st, None) ->
  len data <= st_offset st ->
  exists st0,
    process_lvx base_name data 0 [] = Some (st0, None) /\
    chunk_point_total (st_log st) = all_point_total (st_log st0).
Proof.
  intros HN H Hend.
  destruct (chunk_points_in_general base_name data frames_per_output
              ltac:(lia) [] [] st H) as (st0 & H0 & Hpts).
  exists st0. split; [assumption|].
  assert (Hcp : chunk_points st = []).
  { unfold process_lvx in H.
    destruct (parse_header data) as [[[fd dc] off]|e0]; [|discriminate].
    destruct (frames_loop _ _ _ _ _) as [[st1 [e1|]]|] eqn:F;
      try discriminate.
    injection H as <-.
    apply (frames_loop_chunk_inv base_name data frames_per_output HN []) in F.
    - destruct F as (_ & _ & _ & _ & Hceil).
      unfold finish in *.
      replace (frames_per_output =? 0) with false in *
        by (symmetry; apply Z.eqb_neq; lia).
      cbn in *. now apply Hceil.
    - unfold chunk_inv, initial_state, ceil_div, first_indices. cbn.
      repeat split; try lia. symmetry. apply Z.div_small. lia. }
  rewrite Hcp in Hpts. cbn in Hpts. lia.
Qed.

(** ** What a package yields *)

Lemma read_package_header_timestamp (data : bytes) (offset off' : Z)
      (h : package_header) :
  read_package_header data offset = Ok (h, off') ->
  timestamp h = le_unsigned (slice data (offset + 11) (offset + 19)).
Proof.
  unfold read_package_header. intros H. repeat step_bind H.
  injection H as <- <-. cbn [timestamp].
  match goal with
  | E : unpack_Q (slice data ?a ?b) = Ok ?v |- ?v = _ =>
    unfold unpack_Q, unpack_uint in E;
    destruct (Nat.eqb _ 8); [|discriminate E];
    injection E as <-
  end.
  apply f_equal. f_equal; lia.
Qed.

(** X1.  A decoded package yields points only for [data_type] 2, 4 and
    7, and an IMU record exactly for [data_type] 6: that record carries the
    64-bit timestamp of the package header and the six words of the 24
    payload bytes, and comes without points; any other [data_type] yields
    nothing. *)
Theorem package_yields_by_type :
  forall data offset pts imu off' dt,
    process_package data offset = Ok (pts, imu, off') ->
    package_data_type data offset = Ok dt ->
    (dt = 6 ->
     pts = [] /\
     exists gx gy gz ax ay az,
       unpack_6f (slice data (offset + 19) (offset + 19 + 24))
       = Ok (gx, gy, gz, ax, ay, az) /\
       imu = Some (mkImu (le_unsigned (slice data (offset + 11) (offset + 19)))
                         gx gy gz ax ay az)) /\
    (dt <> 6 -> imu = None) /\
    (dt <> 2 -> dt <> 4 -> dt <> 7 -> pts = []).
Proof.
  intros data offset pts imu off' dt H Hdt. unfold process_package in H.
  step_bind H. destruct a as [h off1].
  pose proof (read_package_header_timestamp _ _ _ _ E) as Hts.
  apply read_package_header_inv in E. destruct E as (-> & _ & Hdt').
  assert (data_type h = dt) as Hh by congruence.
  unfold process_payload in H. rewrite Hh in H.
  destruct (Z.eqb_spec dt 2) as [->|N2];
    [|destruct (Z.eqb_spec dt 4) as [->|N4];
      [|destruct (Z.eqb_spec dt 7) as [->|N7];
        [|destruct (Z.eqb_spec dt 6) as [->|N6]]]].
  - step_bind H. destruct a as [o p]. injection H as <- <- <-.
    repeat split; intros; try discriminate; congruence.
  - step_bind H. destruct a as [o p]. injection H as <- <- <-.
    repeat split; intros; try discriminate; congruence.
  - step_bind H. destruct a as [o p]. injection H as <- <- <-.
    repeat split; intros; try discriminate; congruence.
  - step_bind H. destruct a as [[[[[gx gy] gz] ax] ay] az].
    injection H as <- <- <-. split; [|split]; try congruence.
    intros _. split; [reflexivity|].
    exists gx, gy, gz, ax, ay, az. rewrite <- Hts. split; reflexivity.
  - injection H as <- <- <-. repeat split; intros; congruence.
Qed.

(** ** Field ranges *)

Lemma le_unsigned_bound (bs : bytes) :
  0 <= le_unsigned bs < 2 ^ (8 * len bs).
Proof.
  induction bs as [|b bs IH].
  - cbn. lia.
  - cbn [le_unsigned]. pose proof (byte_val_range b).
    unfold len in *. cbn [length].
    replace (8 * Z.of_nat (S (length bs))) with (8 + 8 * Z.of_nat (length bs))
      by lia.
    rewrite Z.pow_add_r by lia. change (2 ^ 8) with 256. lia.
Qed.

Lemma slice_width (data : bytes) (a w : Z) :
  0 <= w -> len (slice data a (a + w)) <= w.
Proof.
  intros Hw. pose proof (len_nonneg data). unfold slice, clamp, len in *.
  rewrite length_firstn.
  destruct (a <? 0) eqn:Ha; destruct (a + w <? 0) eqn:Hb;
    [apply Z.ltb_lt in Ha | apply Z.ltb_lt in Ha | apply Z.ltb_ge in Ha
     | apply Z.ltb_ge in Ha];
    [apply Z.ltb_lt in Hb | apply Z.ltb_ge in Hb | apply Z.ltb_lt in Hb
     | apply Z.ltb_ge in Hb]; lia.
Qed.

Lemma int_from_bytes_signed_range (bs : bytes) :
  len bs <= 4 -> - 2 ^ 31 <= int_from_bytes_signed bs < 2 ^ 31.
Proof.
  intros Hl. pose proof (le_unsigned_bound bs) as Hu.
  unfold int_from_bytes_signed.
  destruct bs as [|b0 bs]; [cbn; lia|].
  remember (b0 :: bs) as l eqn:El.
  assert (Hpos : 1 <= len l) by (subst l; unfold len; cbn [length]; lia).
  assert (Hw : len l = 1 \/ len l = 2 \/ len l = 3 \/ len l = 4) by lia.
  cbv zeta.
  destruct Hw as [Hw|[Hw|[Hw|Hw]]]; rewrite Hw in *;
    cbn in Hu |- *;
    match goal with
    | |- context [?u <? ?c] => destruct (Z.ltb_spec u c)
    end; lia.
Qed.

Lemma read_sub_ranges (data : bytes) (off x y z refl tag : Z) :
  read_sub data off = Ok (x, y, z, refl, tag) ->
  in_field_ranges (mkPoint x y z refl 1).
Proof.
  unfold read_sub. intros H. repeat step_bind H. injection H as <- <- <- <- <-.
  apply index_ok_range in E. unfold in_field_ranges. cbn [pt_x pt_y pt_z pt_intensity].
  pose proof (slice_width data off 4 ltac:(lia)).
  pose proof (slice_width data (off + 4) 4 ltac:(lia)).
  pose proof (slice_width data (off + 8) 4 ltac:(lia)).
  replace (off + 4 + 4) with (off + 8) in * by lia.
  replace (off + 8 + 4) with (off + 12) in * by lia.
  repeat split; try apply int_from_bytes_signed_range; try assumption; lia.
Qed.

Lemma decode_at_ranges (data : bytes) (p : Z * Z) (q : point) :
  decode_at data p = Ok q -> in_field_ranges q.
Proof.
  unfold decode_at. intros H. step_bind H.
  destruct a as [[[[x y] z] rf] t]. injection H as <-.
  apply read_sub_ranges in E. exact E.
Qed.

Lemma process_package_ranges (data : bytes) (offset off' : Z)
      (pts : list point) (imu : option imu_record) :
  process_package data offset = Ok (pts, imu, off') ->
  Forall in_field_ranges pts.
Proof.
  intros H. apply process_package_inv in H.
  destruct H as (dt & subs & _ & _ & Hs & -> & _).
  apply Forall_forall. intros q Hq. apply filter_In in Hq.
  destruct Hq as [Hq _].
  destruct (decode_all_from _ _ _ _ Hs Hq) as (p & _ & Hd).
  eapply decode_at_ranges; eauto.
Qed.

Lemma process_package_imu_timestamp (data : bytes) (offset off' : Z)
      (pts : list point) (r : imu_record) :
  process_package data offset = Ok (pts, Some r, off') ->
  imu_timestamp r = le_unsigned (slice data (offset + 11) (offset + 19)).
Proof.
  unfold process_package. intros H. step_bind H. destruct a as [h off1].
  apply read_package_header_timestamp in E. rewrite <- E.
  unfold process_payload in H.
  destruct (data_type h =? 2);
    [|destruct (data_type h =? 4);
      [|destruct (data_type h =? 7);
        [|destruct (data_type h =? 6)]]].
  - step_bind H. destruct a as [o p]. discriminate H.
  - step_bind H. destruct a as [o p]. discriminate H.
  - step_bind H. destruct a as [o p]. discriminate H.
  - step_bind H. destruct a as [[[[[gx gy] gz] ax] ay] az].
    now injection H as _ <- _.
  - discriminate H.
Qed.

(** X2.  Every point of a decoded package, and so of a decoded frame, has
    its coordinates in the signed 32-bit range and its intensity in
    0..255; the timestamp of a decoded IMU record is an unsigned 64-bit
    value. *)
Theorem decoded_fields_in_range :
  (forall data offset pts imu off',
      process_package data offset = Ok (pts, imu, off') ->
      Forall in_field_ranges pts /\
      forall r, imu = Some r -> 0 <= imu_timestamp r < 2 ^ 64) /\
  (forall data offset frame_end pts imus off',
      process_frame data offset frame_end = Some (Ok (pts, imus, off')) ->
      Forall in_field_ranges pts).
Proof.
  split.
  - intros data offset pts imu off' H. split.
    + eapply process_package_ranges; eauto.
    + intros r ->. apply process_package_imu_timestamp in H. rewrite H.
      pose proof (le_unsigned_bound (slice data (offset + 11) (offset + 19))).
      pose proof (slice_width data (offset + 11) 8 ltac:(lia)) as Hw.
      replace (offset + 11 + 8) with (offset + 19) in Hw by lia.
      assert (2 ^ (8 * len (slice data (offset + 11) (offset + 19))) <= 2 ^ 64)
        by (apply Z.pow_le_mono_r; lia).
      lia.
  - intros data offset frame_end pts imus off' H.
    apply (process_frame_inv in_field_ranges) in H; [tauto|].
    intros o ps i o'. apply process_package_ranges.
Qed.

Lemma decoded_fields_in_range_witness :
  Forall in_field_ranges [sample_point].
Proof.
  assert (H : process_package sample_package 0 = Ok ([sample_point], None, 1363))
    by (vm_compute; reflexivity).
  exact (proj1 (proj1 decoded_fields_in_range sample_package 0 _ _ _ H)).
Defined.

Lemma package_yields_by_type_witness :
  process_package imu_package 0 = Ok ([], Some imu_sample, 43) /\
  @nil point = [] /\
  exists gx gy gz ax ay az,
    unpack_6f (slice imu_package (0 + 19) (0 + 19 + 24))
    = Ok (gx, gy, gz, ax, ay, az) /\
    Some imu_sample
    = Some (mkImu (le_unsigned (slice imu_package (0 + 11) (0 + 19)))
                  gx gy gz ax ay az).
Proof.
  assert (H : process_package imu_package 0 = Ok ([], Some imu_sample, 43))
    by (vm_compute; reflexivity).
  assert (Hdt : package_data_type imu_package 0 = Ok 6)
    by (vm_compute; reflexivity).
  split; [exact H|].
  exact (proj1 (package_yields_by_type _ _ _ _ _ _ H Hdt) eq_refl).
Defined.

(** ** Point counts *)

Lemma decode_all_length (data : bytes) (ps : list (Z * Z)) :
  forall subs, decode_all data ps = Ok subs -> length subs = length ps.
Proof.
  induction ps as [|p ps IH]; intros subs H; cbn [decode_all] in H.
  - now injection H as <-.
  - step_bind H. step_bind H. injection H as <-. cbn [length].
    f_equal. now apply IH.
Qed.

Lemma sub_positions_length (r cnt : nat) :
  forall base, length (sub_positions r cnt base) = (cnt * r)%nat.
Proof.
  induction cnt as [|cnt IH]; intros base; [reflexivity|].
  cbn [sub_positions]. rewrite length_app, IH.
  unfold entry_positions. rewrite length_map, length_seq. lia.
Qed.

(** X3.  A decoded package holds at most one point per sub-entry of its
    payload: at most 96 for [data_type] 2 and 4, at most 90 for 7, and
    none for any other [data_type]. *)
Theorem package_point_count :
  forall data offset pts imu off' dt,
    process_package data offset = Ok (pts, imu, off') ->
    package_data_type data offset = Ok dt ->
    (length pts <= entries_of dt * returns_of dt)%nat /\
    (length pts <= 96)%nat /\
    (dt = 7 -> (length pts <= 90)%nat).
Proof.
  intros data offset pts imu off' dt H Hdt. apply process_package_inv in H.
  destruct H as (dt' & subs & Hdt' & _ & Hs & -> & _).
  assert (dt' = dt) as -> by congruence.
  apply decode_all_length in Hs. rewrite sub_positions_length in Hs.
  pose proof (filter_length_le (fun p => negb (sentinel_point p)) subs) as Hf.
  unfold valid_points.
  assert (Hb : (entries_of dt * returns_of dt <= 96)%nat).
  { unfold entries_of, returns_of.
    destruct (dt =? 2), (dt =? 4), (dt =? 7); cbn; lia. }
  split; [lia|]. split; [lia|].
  intros ->. cbn in Hs. lia.
Qed.

Lemma package_point_count_witness :
  (length [sample_point] <= 96)%nat.
Proof.
  apply (package_point_count sample_package 0 [sample_point] None 1363 2).
  - vm_compute; reflexivity.
  - vm_compute; reflexivity.
Defined.

(** X4.  No valid return is lost: every sub-entry of a decoded point
    package that is not the sentinel [(0, 0, 0, reflectivity 0)] is among
    the points of the package, with its fields as read and the return
    number [k + 1] of its position [k] in its entry. *)
Theorem valid_sub_entry_kept :
  forall data offset pts imu off' dt (i k : nat) x y z reflectivity tag,
    process_package data offset = Ok (pts, imu, off') ->
    package_data_type data offset = Ok dt ->
    (i < entries_of dt)%nat -> (k < returns_of dt)%nat ->
    read_sub data (offset + 19 + 14 * Z.of_nat (returns_of dt) * Z.of_nat i
                   + 14 * Z.of_nat k)
    = Ok (x, y, z, reflectivity, tag) ->
    is_sentinel x y z reflectivity = false ->
    In (mkPoint x y z reflectivity (Z.of_nat k + 1)) pts.
Proof.
  intros data offset pts imu off' dt i k x y z refl tag H Hdt Hi Hk Hsub Hv.
  apply process_package_inv in H.
  destruct H as (dt' & subs & Hdt' & _ & Hs & -> & _).
  assert (dt' = dt) as -> by congruence.
  pose proof (in_sub_positions _ _ (offset + 19) i k Hi Hk) as Hin.
  destruct (decode_all_in _ _ _ _ Hs Hin) as (q & Hq & Hq').
  unfold decode_at in Hq. cbn [fst snd] in Hq. rewrite Hsub in Hq.
  cbn in Hq. injection Hq as <-.
  apply filter_In. split; [assumption|].
  unfold sentinel_point. cbn. now rewrite Hv.
Qed.

Lemma valid_sub_entry_kept_witness :
  In (mkPoint 1000 2000 3000 50 1) [sample_point].
Proof.
  apply (valid_sub_entry_kept sample_package 0 [sample_point] None 1363 2
           0%nat 0%nat 1000 2000 3000 50 0).
  - vm_compute; reflexivity.
  - vm_compute; reflexivity.
  - vm_compute; lia.
  - vm_compute; lia.
  - vm_compute; reflexivity.
  - vm_compute; reflexivity.
Defined.

(** ** A frame is the chain of its packages *)

Section FrameChain.

Variable data : bytes.
Variable frame_end : Z.

Lemma frame_loop_chain (fuel : nat) :
  forall offset fp fi pts imus off',
    frame_loop fuel data offset frame_end fp fi = Some (Ok (pts, imus, off')) ->
    exists pts' imus',
      package_chain data frame_end offset pts' imus' off' /\
      pts = fp ++ pts' /\ imus = fi ++ imus'.
Proof.
  induction fuel as [|fuel IH]; intros offset fp fi pts imus off' H;
    cbn [frame_loop] in H; destruct (offset <? frame_end) eqn:Hlt;
    try discriminate.
  - injection H as <- <- <-. apply Z.ltb_ge in Hlt.
    exists [], []. rewrite !app_nil_r. repeat split. now constructor.
  - apply Z.ltb_lt in Hlt.
    destruct (process_package data offset) as [[[ps i] o']|e] eqn:E;
      [|discriminate].
    apply IH in H. destruct H as (pts' & imus' & Hc & -> & ->).
    exists (ps ++ pts'), (imu_list i ++ imus'). split; [|split].
    + econstructor; eauto.
    + destruct ps; [reflexivity|]. now rewrite <- app_assoc.
    + destruct i; cbn [imu_list]; [now rewrite <- app_assoc | reflexivity].
  - injection H as <- <- <-. apply Z.ltb_ge in Hlt.
    exists [], []. rewrite !app_nil_r. repeat split. now constructor.
Qed.

Lemma chain_frame_loop offset pts imus off' :
  package_chain data frame_end offset pts imus off' ->
  forall fuel fp fi,
    frame_loop fuel data offset frame_end fp fi = None \/
    frame_loop fuel data offset frame_end fp fi
    = Some (Ok (fp ++ pts, fi ++ imus, off')).
Proof.
  induction 1 as [offset Hge|offset ps i off1 pts' imus' off' Hlt Hp Hc IH];
    intros fuel fp fi.
  - right. destruct fuel; cbn [frame_loop];
      replace (offset <? frame_end) with false
        by (symmetry; apply Z.ltb_ge; lia);
      now rewrite !app_nil_r.
  - destruct fuel as [|fuel]; cbn [frame_loop];
      replace (offset <? frame_end) with true
        by (symmetry; apply Z.ltb_lt; lia); [now left|].
    rewrite Hp.
    match goal with
    | |- frame_loop fuel data off1 frame_end ?a ?b = None \/ _ =>
      destruct (IH fuel a b) as [Hn|Hs]; [now left | right; rewrite Hs]
    end.
    assert (Hps : match ps with [] => fp | _ :: _ => fp ++ ps end = fp ++ ps)
      by (destruct ps; [now rewrite app_nil_r | reflexivity]).
    assert (Hi : match i with Some r => fi ++ [r] | None => fi end
                 = fi ++ imu_list i)
      by (destruct i; cbn [imu_list]; [reflexivity | now rewrite app_nil_r]).
    now rewrite Hps, Hi, <- !app_assoc.
Qed.

End FrameChain.

(** X5.  A frame decodes exactly to the chain of the packages decoded one
    after the other from its start, each starting before [frame_end]: its
    points and IMU records are those of the packages, in package order,
    and it ends where the first package at or past [frame_end] would
    start. *)
Theorem frame_is_package_chain :
  forall data offset frame_end pts imus off',
    process_frame data offset frame_end = Some (Ok (pts, imus, off'))
    <-> package_chain data frame_end offset pts imus off'.
Proof.
  intros data offset frame_end pts imus off'. unfold process_frame. split.
  - intros H. apply frame_loop_chain in H.
    destruct H as (pts' & imus' & Hc & -> & ->). exact Hc.
  - intros Hc.
    destruct (chain_frame_loop data frame_end _ _ _ _ Hc
                               (frame_fuel data) [] []) as [Hn|Hs].
    + now apply process_frame_terminates in Hn.
    + exact Hs.
Qed.

Lemma frame_is_package_chain_witness :
  package_chain two_packages 1400 0 [sample_point] [imu_sample] 1406.
Proof.
  apply (proj1 (frame_is_package_chain two_packages 0 1400
                  [sample_point] [imu_sample] 1406)).
  vm_compute; reflexivity.
Defined.

Lemma payload_size_max (dt : Z) : payload_size dt <= 1344.
Proof.
  unfold payload_size.
  destruct (dt =? 2); [lia|]. destruct (dt =? 4); [lia|].
  destruct (dt =? 7); lia.
Qed.

Lemma chain_overshoot data frame_end offset pts imus off' :
  package_chain data frame_end offset pts imus off' ->
  (frame_end <= offset -> off' = offset /\ pts = [] /\ imus = []) /\
  (offset < frame_end -> frame_end <= off' < frame_end + 1363).
Proof.
  induction 1 as [offset Hge|offset ps i off1 pts' imus' off' Hlt Hp Hc IH].
  - split; [auto | lia].
  - split; [lia|]. intros _.
    apply process_package_inv in Hp.
    destruct Hp as (dt & subs & _ & -> & _).
    pose proof (payload_size_max dt). pose proof (payload_size_min dt).
    destruct IH as [IH1 IH2].
    destruct (Z_lt_le_dec (offset + 19 + payload_size dt) frame_end) as [Hl|Hl].
    + specialize (IH2 Hl). lia.
    + destruct (IH1 Hl) as (-> & _). lia.
Qed.

(** X6.  A decoded frame ends less than one package past its declared
    end: with the frame start before [frame_end], the end offset lies in
    [frame_end, frame_end + 1363); with the start at or past [frame_end]
    nothing is decoded and the offset does not move. *)
Theorem frame_end_overshoot :
  forall data offset frame_end pts imus off',
    process_frame data offset frame_end = Some (Ok (pts, imus, off')) ->
    (frame_end <= offset -> off' = offset /\ pts = [] /\ imus = []) /\
    (offset < frame_end -> frame_end <= off' < frame_end + 1363).
Proof.
  intros data offset frame_end pts imus off' H. unfold process_frame in H.
  apply frame_loop_chain in H. destruct H as (pts' & imus' & Hc & -> & ->).
  cbn [app]. eapply chain_overshoot; eauto.
Qed.

Lemma frame_end_overshoot_witness :
  100 <= 1363 < 100 + 1363.
Proof.
  apply (proj2 (frame_end_overshoot sample_package 0 100
                  [sample_point] [] 1363 ltac:(vm_compute; reflexivity))).
  lia.
Defined.

(** ** Chunked and unchunked traversals, frame by frame *)

Lemma chunk_point_lists_app (l1 l2 : list event) :
  chunk_point_lists (l1 ++ l2) = chunk_point_lists l1 ++ chunk_point_lists l2.
Proof.
  induction l1 as [|ev l1 IH]; [reflexivity|].
  destruct ev; cbn; rewrite IH; reflexivity.
Qed.

Lemma chunk_imu_lists_app (l1 l2 : list event) :
  chunk_imu_lists (l1 ++ l2) = chunk_imu_lists l1 ++ chunk_imu_lists l2.
Proof.
  induction l1 as [|ev l1 IH]; [reflexivity|].
  destruct ev; cbn; rewrite IH; reflexivity.
Qed.

Lemma overall_imu_lists_app (l1 l2 : list event) :
  overall_imu_lists (l1 ++ l2) = overall_imu_lists l1 ++ overall_imu_lists l2.
Proof.
  induction l1 as [|ev l1 IH]; [reflexivity|].
  destruct ev; cbn; rewrite IH; reflexivity.
Qed.

Section SameFrames.

Variable base_name : String.string.
Variable data : bytes.
Variable frames_per_output : Z.
Hypothesis chunked : frames_per_output <> 0.

Lemma add_frame_same_frames pts0 imu0 log0 st st0 fp fi off :
  same_frames pts0 imu0 log0 st st0 ->
  same_frames pts0 imu0 log0
    (add_frame base_name data frames_per_output st fp fi off)
    (add_frame base_name data 0 st0 fp fi off).
Proof.
  intros (Hoff & Htf & Hpts & Himu & Hov & Hlog). unfold same_frames, add_frame.
  replace (frames_per_output =? 0) with false
    by (symmetry; now apply Z.eqb_neq).
  cbn [Z.eqb]. destruct (_ || _);
    cbn [st_offset total_frames st_log chunk_points chunk_imu all_points
         all_imu overall_imu];
    rewrite ?chunk_point_lists_app, ?chunk_imu_lists_app;
    cbn [chunk_point_lists chunk_imu_lists]; rewrite ?concat_app;
    cbn [concat]; rewrite ?app_nil_r.
  - repeat split; try congruence.
    + rewrite (app_assoc pts0), <- Hpts, <- !app_assoc. reflexivity.
    + rewrite (app_assoc imu0), <- Himu, <- !app_assoc. reflexivity.
  - repeat split; try congruence.
    + rewrite (app_assoc pts0), <- Hpts, <- !app_assoc. reflexivity.
    + rewrite (app_assoc imu0), <- Himu, <- !app_assoc. reflexivity.
Qed.

Lemma frames_loop_same_frames pts0 imu0 log0 (fuel : nat) :
  forall st st0 st' e,
    same_frames pts0 imu0 log0 st st0 ->
    frames_loop fuel base_name data frames_per_output st = Some (st', e) ->
    exists st0',
      frames_loop fuel base_name data 0 st0 = Some (st0', e) /\
      same_frames pts0 imu0 log0 st' st0'.
Proof.
  induction fuel as [|fuel IH]; intros st st0 st' e Hsame H;
    pose proof Hsame as (Hoff & _);
    cbn [frames_loop] in *; rewrite <- Hoff;
    destruct (st_offset st <? len data);
    try (injection H as <- <-; eauto);
    destruct (st_offset st + 24 >? len data);
    try (injection H as <- <-; eauto); try discriminate.
  destruct (unpack_Q _) as [c1|]; cbn [bind] in *;
    [|injection H as <- <-; eauto].
  destruct (unpack_Q _) as [n|]; cbn [bind] in *;
    [|injection H as <- <-; eauto].
  destruct (unpack_Q _) as [f|]; cbn [bind] in *;
    [|injection H as <- <-; eauto].
  destruct (process_frame data _ n) as [[[[fp fi] off']|e']|];
    [| injection H as <- <-; eauto | discriminate].
  eapply IH; [|exact H]. now apply add_frame_same_frames.
Qed.

(** Nothing is left in the chunk buffers once the offset is at or past
    the end of the buffer. *)
Lemma frames_loop_flushed (fuel : nat) :
  forall st st' e,
    (len data <= st_offset st -> chunk_points st = [] /\ chunk_imu st = []) ->
    frames_loop fuel base_name data frames_per_output st = Some (st', e) ->
    len data <= st_offset st' -> chunk_points st' = [] /\ chunk_imu st' = [].
Proof.
  induction fuel as [|fuel IH]; intros st st' e Hst H;
    cbn [frames_loop] in H;
    destruct (st_offset st <? len data) eqn:Hlt;
    try (injection H as <- <-; assumption);
    destruct (st_offset st + 24 >? len data);
    try (injection H as <- <-; assumption); try discriminate.
  destruct (unpack_Q _) as [c1|]; cbn [bind] in H;
    [|injection H as <- <-; assumption].
  destruct (unpack_Q _) as [n|]; cbn [bind] in H;
    [|injection H as <- <-; assumption].
  destruct (unpack_Q _) as [f|]; cbn [bind] in H;
    [|injection H as <- <-; assumption].
  destruct (process_frame data _ n) as [[[[fp fi] off']|e']|];
    [| injection H as <- <-; assumption | discriminate].
  eapply IH; [|exact H].
  unfold add_frame.
  replace (frames_per_output =? 0) with false
    by (symmetry; now apply Z.eqb_neq).
  destruct (Z.geb_spec off' (len data)) as [Hge|Hl];
    [rewrite orb_true_r; cbn; auto|].
  destruct (_ || _); cbn; [auto | lia].
Qed.

(** The frame loop never writes an overall file. *)
Lemma frames_loop_no_overall (fuel : nat) :
  forall st st' e,
    frames_loop fuel base_name data frames_per_output st = Some (st', e) ->
    overall_imu_lists (st_log st') = overall_imu_lists (st_log st).
Proof.
  induction fuel as [|fuel IH]; intros st st' e H;
    cbn [frames_loop] in H;
    destruct (st_offset st <? len data) eqn:Hlt;
    try (injection H as <- <-; reflexivity);
    destruct (st_offset st + 24 >? len data);
    try (injection H as <- <-; reflexivity); try discriminate.
  destruct (unpack_Q _) as [c1|]; cbn [bind] in H;
    [|injection H as <- <-; reflexivity].
  destruct (unpack_Q _) as [n|]; cbn [bind] in H;
    [|injection H as <- <-; reflexivity].
  destruct (unpack_Q _) as [f|]; cbn [bind] in H;
    [|injection H as <- <-; reflexivity].
  destruct (process_frame data _ n) as [[[[fp fi] off']|e']|];
    [| injection H as <- <-; reflexivity | discriminate].
  apply IH in H. rewrite H. unfold add_frame.
  destruct (frames_per_output =? 0); [reflexivity|].
  destruct (_ || _); cbn [st_log]; [|reflexivity].
  rewrite overall_imu_lists_app. cbn. now rewrite app_nil_r.
Qed.

Lemma process_lvx_same_frames log log0 st e :
  process_lvx base_name data frames_per_output log = Some (st, e) ->
  exists st0,
    process_lvx base_name data 0 log0 = Some (st0, e) /\
    st_offset st0 = st_offset st /\
    total_frames st0 = total_frames st /\
    (e = None ->
     concat (chunk_point_lists (st_log st)) ++ chunk_points st
     = concat (chunk_point_lists log) ++ all_points st0 /\
     concat (chunk_imu_lists (st_log st)) ++ chunk_imu st
     = concat (chunk_imu_lists log) ++ all_imu st0 /\
     overall_imu_lists (st_log st) = overall_imu_lists log ++ [all_imu st0] /\
     st_log st0 = log0 ++ [LasAll base_name (all_points st0);
                           CsvAll base_name (all_imu st0);
                           CsvOverall base_name (all_imu st0)] /\
     (len data <= st_offset st -> chunk_points st = [] /\ chunk_imu st = [])).
Proof.
  unfold process_lvx. intros H.
  destruct (parse_header data) as [[[fd dc] off]|e0].
  2:{ injection H as <- <-. eexists. split; [reflexivity|].
      repeat split; discriminate. }
  destruct (frames_loop _ _ _ frames_per_output _) as [[st1 e1]|] eqn:F;
    [|discriminate].
  assert (Hflush : len data <= st_offset st1 ->
                   chunk_points st1 = [] /\ chunk_imu st1 = []).
  { eapply frames_loop_flushed; [|exact F]. intros _. split; reflexivity. }
  pose proof (frames_loop_no_overall _ _ _ _ F) as Hno.
  cbn [initial_state st_log] in Hno.
  apply (frames_loop_same_frames (concat (chunk_point_lists log))
           (concat (chunk_imu_lists log)) log0 _ _
           (initial_state off log0)) in F.
  2:{ unfold same_frames, initial_state. cbn. rewrite !app_nil_r.
      repeat split. }
  destruct F as (st0 & -> & Hoff & Htf & Hpts & Himu & Hov & Hlog).
  destruct e1 as [e1|]; injection H as <- <-.
  - exists st0. split; [reflexivity|]. repeat split; try congruence; discriminate.
  - eexists. split; [reflexivity|].
    unfold finish. cbn [Z.eqb].
    replace (frames_per_output =? 0) with false
      by (symmetry; now apply Z.eqb_neq).
    cbn [st_offset total_frames st_log chunk_points chunk_imu all_points
         all_imu].
    rewrite chunk_point_lists_app, chunk_imu_lists_app, overall_imu_lists_app.
    cbn [chunk_point_lists chunk_imu_lists overall_imu_lists].
    rewrite !app_nil_r, Hlog, Hov, Hno, <- app_assoc.
    repeat split; try congruence; try (apply Hflush; assumption).
Qed.

End SameFrames.

(** X7.  Chunking does not change what is decoded: a capture processed
    with [frames_per_output <> 0] ends with the same outcome (no exception,
    or the same exception), after the same number of frames and at the same
    offset, as with [frames_per_output = 0]. *)
Theorem chunking_keeps_decoding :
  forall base_name data frames_per_output log log0 st e,
    frames_per_output <> 0 ->
    process_lvx base_name data frames_per_output log = Some (st, e) ->
    exists st0,
      process_lvx base_name data 0 log0 = Some (st0, e) /\
      total_frames st0 = total_frames st /\
      st_offset st0 = st_offset st.
Proof.
  intros base_name data N log log0 st e HN H.
  destruct (process_lvx_same_frames base_name data N HN log log0 st e H)
    as (st0 & H0 & Hoff & Htf & _).
  exists st0. auto.
Qed.

Lemma chunking_keeps_decoding_witness :
  exists st,
    process_lvx "cap"%string trailing_capture 2 [] = Some (st, None) /\
    exists st0,
      process_lvx "cap"%string trailing_capture 0 [] = Some (st0, None) /\
      total_frames st0 = total_frames st /\
      st_offset st0 = st_offset st.
Proof.
  eexists. split; [vm_compute; reflexivity|].
  apply (chunking_keeps_decoding "cap"%string trailing_capture 2 [] []);
    [lia | vm_compute; reflexivity].
Defined.

(** X8.  The chunk files partition the decoded data in order: for a
    capture processed without an exception with [frames_per_output <> 0],
    the point lists of the chunk files, one after the other, followed by
    the points left in [chunk_points], are the point list of the one file
    written with [frames_per_output = 0], and likewise for the IMU
    records; when the traversal ended at or past the end of the buffer
    nothing is left over. *)
Theorem chunks_partition_decoded_data :
  forall base_name data frames_per_output st,
    frames_per_output <> 0 ->
    process_lvx base_name data frames_per_output [] = Some (st, None) ->
    exists st0,
      process_lvx base_name data 0 [] = Some (st0, None) /\
      st_log st0 = [LasAll base_name (all_points st0);
                    CsvAll base_name (all_imu st0);
                    CsvOverall base_name (all_imu st0)] /\
      concat (chunk_point_lists (st_log st)) ++ chunk_points st
      = all_points st0 /\
      concat (chunk_imu_lists (st_log st)) ++ chunk_imu st = all_imu st0 /\
      (len data <= st_offset st ->
       concat (chunk_point_lists (st_log st)) = all_points st0 /\
       concat (chunk_imu_lists (st_log st)) = all_imu st0).
Proof.
  intros base_name data N st HN H.
  destruct (process_lvx_same_frames base_name data N HN [] [] st None H)
    as (st0 & H0 & _ & _ & Hrest).
  destruct (Hrest eq_refl) as (Hpts & Himu & _ & Hlog & Hflush).
  exists st0. cbn in Hpts, Himu, Hlog.
  split; [assumption|]. split; [assumption|]. split; [assumption|].
  split; [assumption|].
  intros Hend. destruct (Hflush Hend) as [Hp Hi].
  rewrite Hp, Hi, !app_nil_r in *. split; assumption.
Qed.

Lemma chunks_partition_decoded_data_witness :
  exists st,
    process_lvx "cap"%string trailing_capture 2 [] = Some (st, None) /\
    exists st0,
      process_lvx "cap"%string trailing_capture 0 [] = Some (st0, None) /\
      concat (chunk_point_lists (st_log st)) ++ chunk_points st
      = all_points st0.
Proof.
  eexists. split; [vm_compute; reflexivity|].
  destruct (chunks_partition_decoded_data "cap"%string trailing_capture 2 _
              ltac:(lia) ltac:(vm_compute; reflexivity))
    as (st0 & H0 & _ & Hpts & _).
  exists st0. split; assumption.
Defined.

(** ** The unchunked traversal against the chain of frames *)

Lemma add_frame_total_frames base_name data n st fp fi off :
  total_frames (add_frame base_name data n st fp fi off) = total_frames st + 1.
Proof.
  unfold add_frame. destruct (n =? 0); [reflexivity|].
  destruct (_ || _); reflexivity.
Qed.

Lemma frames_loop_unchunked_traversal (fuel : nat) base_name data :
  forall st st' e,
    0 <= st_offset st ->
    frames_loop fuel base_name data 0 st = Some (st', e) ->
    exists frames,
      traversal data (st_offset st) frames (st_offset st') e /\
      total_frames st' = total_frames st + Z.of_nat (length frames) /\
      all_points st' = all_points st ++ concat (map fst frames) /\
      all_imu st' = all_imu st ++ concat (map snd frames).
Proof.
  induction fuel as [|fuel IH]; intros st st' e H0 H;
    cbn [frames_loop] in H;
    destruct (st_offset st <? len data) eqn:Hlt;
    [apply Z.ltb_lt in Hlt | apply Z.ltb_ge in Hlt
     | apply Z.ltb_lt in Hlt | apply Z.ltb_ge in Hlt];
    try (injection H as <- <-; exists []; cbn; rewrite !app_nil_r;
         repeat split; try lia; now constructor);
    destruct (st_offset st + 24 >? len data) eqn:Hgt;
    rewrite Z.gtb_ltb in Hgt;
    [apply Z.ltb_lt in Hgt | apply Z.ltb_ge in Hgt
     | apply Z.ltb_lt in Hgt | apply Z.ltb_ge in Hgt];
    try (injection H as <- <-; exists []; cbn; rewrite !app_nil_r;
         repeat split; try lia; now constructor);
    try discriminate.
  destruct (proj2 (unpack_Q_ok data (st_offset st) H0) ltac:(lia)) as [c Hc].
  destruct (proj2 (unpack_Q_ok data (st_offset st + 8) ltac:(lia)) ltac:(lia))
    as [n Hn].
  destruct (proj2 (unpack_Q_ok data (st_offset st + 8 + 8) ltac:(lia))
                  ltac:(lia)) as [f Hf].
  rewrite Hc in H. cbn [bind] in H. rewrite Hn in H. cbn [bind] in H.
  rewrite Hf in H. cbn [bind] in H.
  replace (st_offset st + 8 + 8) with (st_offset st + 16) in Hn by lia.
  replace (st_offset st + 8 + 8 + 8) with (st_offset st + 24) in H by lia.
  destruct (process_frame data (st_offset st + 24) n)
    as [[[[fp fi] off']|e']|] eqn:E; [| |discriminate].
  - pose proof (process_frame_clean _ _ _ _ _ _ E) as [_ Hoff].
    apply IH in H; [|rewrite add_frame_offset; lia].
    destruct H as (frames & Ht & Htf & Hp & Hi).
    rewrite add_frame_offset in Ht.
    exists ((fp, fi) :: frames). split; [|split; [|split]].
    + econstructor; eauto.
    + rewrite Htf, add_frame_total_frames. cbn [length]. lia.
    + rewrite Hp. unfold add_frame. cbn. now rewrite <- app_assoc.
    + rewrite Hi. unfold add_frame. cbn. now rewrite <- app_assoc.
  - injection H as <- <-. exists []. cbn. rewrite !app_nil_r.
    repeat split; try lia. econstructor; eauto.
Qed.

Lemma process_lvx_unchunked_traversal base_name data log st :
  process_lvx base_name data 0 log = Some (st, None) ->
  exists frame_duration device_count frames,
    parse_header data
    = Ok (frame_duration, device_count, 24 + 4 + 1 + device_count * 59) /\
    traversal data (24 + 4 + 1 + device_count * 59) frames (st_offset st)
              None /\
    total_frames st = Z.of_nat (length frames) /\
    all_points st = concat (map fst frames) /\
    all_imu st = concat (map snd frames).
Proof.
  unfold process_lvx. intros H.
  destruct (parse_header data) as [[[fd dc] off]|e0] eqn:Hh; [|discriminate].
  apply parse_header_inv in Hh. destruct Hh as (_ & _ & -> & Hdc).
  destruct (frames_loop _ _ _ _ _) as [[st1 [e1|]]|] eqn:F; try discriminate.
  injection H as <-.
  apply frames_loop_unchunked_traversal in F;
    [|cbn [initial_state st_offset]; lia].
  destruct F as (frames & Ht & Htf & Hp & Hi).
  exists fd, dc, frames. cbn [initial_state st_offset] in Ht.
  replace (29 + dc * 59) with (24 + 4 + 1 + dc * 59) in Ht by lia.
  replace (29 + dc * 59) with (24 + 4 + 1 + dc * 59) by lia.
  unfold finish. cbn. cbn in Htf, Hp, Hi. repeat split; assumption.
Qed.



(** X11.  With [frames_per_output = 0] everything decoded is written,
    once, after the last frame: for a capture processed without an
    exception, the frames decoded one after the other from the post-header
    offset make up the capture, and exactly three writer calls are made,
    the point file of the whole capture with the points of these frames,
    frame after frame in order, then its IMU file and the overall IMU file
    with the IMU records of these frames in the same order. *)
Theorem unchunked_writes_everything :
  forall base_name data log st,
    process_lvx base_name data 0 log = Some (st, None) ->
    exists frame_duration device_count frames,
      parse_header data
      = Ok (frame_duration, device_count, 24 + 4 + 1 + device_count * 59) /\
      traversal data (24 + 4 + 1 + device_count * 59) frames (st_offset st)
                None /\
      total_frames st = Z.of_nat (length frames) /\
      st_log st = log ++ [LasAll base_name (concat (map fst frames));
                          CsvAll base_name (concat (map snd frames));
                          CsvOverall base_name (concat (map snd frames))].
Proof.
  intros base_name data log st H.
  pose proof (unchunked_flushes_once _ _ _ _ H) as Hlog.
  destruct (process_lvx_unchunked_traversal _ _ _ _ H)
    as (fd & dc & frames & Hh & Ht & Htf & Hp & Hi).
  exists fd, dc, frames. rewrite <- Hp, <- Hi. auto.
Qed.

Lemma unchunked_writes_everything_witness :
  exists st,
    process_lvx "cap"%string sample_capture 0 [] = Some (st, None) /\
    exists frame_duration device_count frames,
      parse_header sample_capture
      = Ok (frame_duration, device_count, 24 + 4 + 1 + device_count * 59) /\
      traversal sample_capture (24 + 4 + 1 + device_count * 59) frames
                (st_offset st) None /\
      total_frames st = Z.of_nat (length frames) /\
      st_log st = [] ++ [LasAll "cap"%string (concat (map fst frames));
                         CsvAll "cap"%string (concat (map snd frames));
                         CsvOverall "cap"%string (concat (map snd frames))].
Proof.
  eexists. split; [vm_compute; reflexivity|].
  apply (unchunked_writes_everything "cap"%string sample_capture []).
  vm_compute; reflexivity.
Defined.


(** ** A negative [frames_per_output] *)

Lemma mod_opp_zero (t n : Z) : (t mod (- n) =? 0) = (t mod n =? 0).
Proof.
  destruct (Z.eq_dec n 0) as [->|Hn]; [reflexivity|].
  apply eq_true_iff_eq. rewrite !Z.eqb_eq. split; intros H.
  - rewrite <- (Z.opp_involutive n). apply Z.mod_opp_r_z; [lia|assumption].
  - apply Z.mod_opp_r_z; assumption.
Qed.

Lemma eqb_opp_zero (n : Z) : (- n =? 0) = (n =? 0).
Proof.
  destruct (Z.eqb_spec n 0), (Z.eqb_spec (- n) 0); try reflexivity; lia.
Qed.

Lemma add_frame_opp base_name data n st fp fi off :
  add_frame base_name data (- n) st fp fi off
  = add_frame base_name data n st fp fi off.
Proof.
  unfold add_frame. now rewrite eqb_opp_zero, mod_opp_zero.
Qed.

Lemma frames_loop_opp (fuel : nat) base_name data n :
  forall st,
    frames_loop fuel base_name data (- n) st
    = frames_loop fuel base_name data n st.
Proof.
  induction fuel as [|fuel IH]; intros st; cbn [frames_loop]; [reflexivity|].
  destruct (st_offset st <? len data); [|reflexivity].
  destruct (st_offset st + 24 >? len data); [reflexivity|].
  destruct (unpack_Q _) as [c1|]; cbn [bind]; [|reflexivity].
  destruct (unpack_Q _) as [nx|]; cbn [bind]; [|reflexivity].
  destruct (unpack_Q _) as [f|]; cbn [bind]; [|reflexivity].
  destruct (process_frame data _ nx) as [[[[fp fi] off']|e']|];
    try reflexivity.
  now rewrite add_frame_opp, IH.
Qed.

(** X12.  A negative [frames_per_output] chunks like its absolute value:
    the flush test [total_frames % frames_per_output == 0] holds for [- n]
    exactly when it holds for [n], so the two runs make the same writer
    calls and end alike. *)
Theorem negative_frames_per_output :
  forall base_name data n log,
    process_lvx base_name data (- n) log = process_lvx base_name data n log.
Proof.
  intros base_name data n log. unfold process_lvx.
  destruct (parse_header data) as [[[fd dc] off]|e]; [|reflexivity].
  rewrite frames_loop_opp.
  destruct (frames_loop _ _ _ _ _) as [[st [e|]]|]; try reflexivity.
  unfold finish. now rewrite eqb_opp_zero.
Qed.

(** ** Captures of a batch are independent *)

Lemma add_frame_with_log base_name data n log st fp fi off :
  add_frame base_name data n (with_log st (log ++ st_log st)) fp fi off
  = with_log (add_frame base_name data n st fp fi off)
             (log ++ st_log (add_frame base_name data n st fp fi off)).
Proof.
  unfold add_frame, with_log. destruct (n =? 0); cbn; [reflexivity|].
  destruct (_ || _); cbn; [|reflexivity]. now rewrite app_assoc.
Qed.

Lemma frames_loop_with_log (fuel : nat) base_name data n log :
  forall st st' e,
    frames_loop fuel base_name data n st = Some (st', e) ->
    frames_loop fuel base_name data n (with_log st (log ++ st_log st))
    = Some (with_log st' (log ++ st_log st'), e).
Proof.
  induction fuel as [|fuel IH]; intros st st' e H;
    cbn [frames_loop] in *; cbn [with_log st_offset];
    destruct (st_offset st <? len data);
    try (injection H as <- <-; reflexivity);
    destruct (st_offset st + 24 >? len data);
    try (injection H as <- <-; reflexivity); try discriminate.
  destruct (unpack_Q _) as [c1|]; cbn [bind] in *;
    [|injection H as <- <-; reflexivity].
  destruct (unpack_Q _) as [nx|]; cbn [bind] in *;
    [|injection H as <- <-; reflexivity].
  destruct (unpack_Q _) as [f|]; cbn [bind] in *;
    [|injection H as <- <-; reflexivity].
  destruct (process_frame data _ nx) as [[[[fp fi] off']|e']|];
    [| injection H as <- <-; reflexivity | discriminate].
  apply IH in H. rewrite <- H. f_equal. apply add_frame_with_log.
Qed.

Lemma process_lvx_with_log base_name data n log log0 st e :
  process_lvx base_name data n log0 = Some (st, e) ->
  process_lvx base_name data n (log ++ log0)
  = Some (with_log st (log ++ st_log st), e).
Proof.
  unfold process_lvx. intros H.
  destruct (parse_header data) as [[[fd dc] off]|e0].
  2:{ now injection H as <- <-. }
  destruct (frames_loop _ _ _ _ (initial_state off log0)) as [[st1 e1]|] eqn:F;
    [|discriminate].
  apply (frames_loop_with_log _ _ _ _ log) in F.
  change (with_log (initial_state off log0)
                   (log ++ st_log (initial_state off log0)))
    with (initial_state off (log ++ log0)) in F.
  rewrite F. destruct e1 as [e1|]; injection H as <- <-; [reflexivity|].
  f_equal. f_equal. unfold finish, with_log.
  destruct (n =? 0); cbn; now rewrite <- !app_assoc.
Qed.

Lemma main_loop_with_log files n log :
  forall log0 l e,
    main_loop files n log0 = Some (l, e) ->
    main_loop files n (log ++ log0) = Some (log ++ l, e).
Proof.
  induction files as [|[name data] rest IH]; intros log0 l e H;
    cbn [main_loop] in *.
  - now injection H as <- <-.
  - destruct (process_lvx name data n log0) as [[st e0]|] eqn:E;
      [|discriminate].
    rewrite (process_lvx_with_log _ _ _ log _ _ _ E).
    destruct e0 as [e0|].
    + now injection H as <- <-.
    + cbn [with_log st_log]. now apply IH.
Qed.

(** X13.  The captures of a batch are processed independently: when a
    first list of captures is processed without an exception, what a batch
    of these followed by further captures writes is what the first list
    writes followed by what the further captures write on their own, and
    the batch ends as they do. *)
Theorem batch_is_concatenation :
  forall files1 files2 frames_per_output log1 log2 e,
    main files1 frames_per_output = Some (log1, None) ->
    main files2 frames_per_output = Some (log2, e) ->
    main (files1 ++ files2) frames_per_output = Some (log1 ++ log2, e).
Proof.
  intros files1 files2 N log1 log2 e H1 H2. unfold main in *.
  rewrite (main_loop_app _ _ _ _ _ H1).
  apply (main_loop_with_log _ _ log1) in H2.
  now rewrite app_nil_r in H2.
Qed.

Lemma batch_is_concatenation_witness :
  main ([("a"%string, sample_capture)] ++ [("b"%string, trailing_capture)]) 1
  = Some ([LasChunk "a"%string 0 [sample_point]; CsvChunk "a"%string 0 [];
           CsvOverall "a"%string []]
          ++ [LasChunk "b"%string 0 [sample_point]; CsvChunk "b"%string 0 [];
              CsvOverall "b"%string []], None).
Proof.
  apply batch_is_concatenation; vm_compute; reflexivity.
Defined.

(** ** Captures without frames, and how many frames there can be *)

(** X14.  A capture whose header parses but which holds fewer than 24
    bytes from the post-header offset on (a device table that runs past
    the end of the file included) is processed without an exception and
    without a frame: no chunk is written, and the files written after the
    traversal are asked for with empty lists. *)
Theorem capture_without_frames :
  forall base_name data frames_per_output log frame_duration device_count
         offset,
    parse_header data = Ok (frame_duration, device_count, offset) ->
    len data < offset + 24 ->
    exists st,
      process_lvx base_name data frames_per_output log = Some (st, None) /\
      total_frames st = 0 /\
      chunk_index st = 0 /\
      st_log st
      = log ++ (if frames_per_output =? 0
                then [LasAll base_name []; CsvAll base_name [];
                      CsvOverall base_name []]
                else [CsvOverall base_name []]).
Proof.
  intros base_name data N log fd dc off Hh Hl. unfold process_lvx.
  rewrite Hh. unfold lvx_fuel. cbn [frames_loop initial_state st_offset].
  assert (Hbreak : (if off <? len data
                    then (off + 24 >? len data) else true) = true).
  { destruct (off <? len data); [|reflexivity]. apply Z.gtb_lt. lia. }
  destruct (off <? len data);
    [rewrite Hbreak|];
    (eexists; split; [reflexivity|]);
    unfold finish; destruct (N =? 0); cbn; repeat split;
    now rewrite <- ?app_assoc.
Qed.

Lemma capture_without_frames_witness :
  exists st,
    process_lvx "cap"%string (zeros 28 ++ [x01]) 2 [] = Some (st, None) /\
    total_frames st = 0 /\
    chunk_index st = 0 /\
    st_log st = [] ++ (if 2 =? 0
                       then [LasAll "cap"%string []; CsvAll "cap"%string [];
                             CsvOverall "cap"%string []]
                       else [CsvOverall "cap"%string []]).
Proof.
  apply (capture_without_frames "cap"%string (zeros 28 ++ [x01]) 2 [] 0 1 88).
  - vm_compute; reflexivity.
  - vm_compute; reflexivity.
Defined.

Lemma frames_loop_count (fuel : nat) base_name data n :
  forall st st' e,
    frames_loop fuel base_name data n st = Some (st', e) ->
    total_frames st <= total_frames st' /\
    24 * (total_frames st' - total_frames st)
    <= Z.max 0 (len data - st_offset st).
Proof.
  induction fuel as [|fuel IH]; intros st st' e H;
    cbn [frames_loop] in H;
    destruct (st_offset st <? len data) eqn:Hlt;
    try (injection H as <- <-; lia);
    destruct (st_offset st + 24 >? len data) eqn:Hgt;
    try (injection H as <- <-; lia); try discriminate.
  destruct (unpack_Q _) as [c1|]; cbn [bind] in H;
    [|injection H as <- <-; lia].
  destruct (unpack_Q _) as [nx|]; cbn [bind] in H;
    [|injection H as <- <-; lia].
  destruct (unpack_Q _) as [f|]; cbn [bind] in H;
    [|injection H as <- <-; lia].
  destruct (process_frame data _ nx) as [[[[fp fi] off']|e']|] eqn:E;
    [| injection H as <- <-; lia | discriminate].
  apply process_frame_clean in E. destruct E as [_ Hoff].
  apply IH in H. rewrite add_frame_total_frames, add_frame_offset in H.
  rewrite Z.gtb_ltb in Hgt. apply Z.ltb_ge in Hgt. lia.
Qed.

(** X15.  Every frame takes at least the 24 bytes of its header from the
    buffer: a capture of [len data] bytes is processed in at most
    [(len data - 29) / 24] frames, whether the traversal ends with an
    exception or not. *)
Theorem frame_count_bound :
  forall base_name data frames_per_output log st e,
    process_lvx base_name data frames_per_output log = Some (st, e) ->
    0 <= total_frames st /\
    24 * total_frames st <= Z.max 0 (len data - 29).
Proof.
  intros base_name data N log st e H. unfold process_lvx in H.
  destruct (parse_header data) as [[[fd dc] off]|e0] eqn:Hh.
  2:{ injection H as <- <-. cbn. lia. }
  apply parse_header_inv in Hh. destruct Hh as (_ & _ & -> & Hdc).
  destruct (frames_loop _ _ _ _ _) as [[st1 e1]|] eqn:F; [|discriminate].
  apply frames_loop_count in F. cbn [initial_state total_frames st_offset] in F.
  destruct e1 as [e1|]; injection H as <- <-;
    [|unfold finish; destruct (N =? 0); cbn [total_frames]]; lia.
Qed.

Lemma frame_count_bound_witness :
  exists st,
    process_lvx "cap"%string sample_capture 2 [] = Some (st, None) /\
    0 <= total_frames st /\
    24 * total_frames st <= Z.max 0 (len sample_capture - 29).
Proof.
  eexists. split; [vm_compute; reflexivity|].
  apply (frame_count_bound "cap"%string sample_capture 2 [] _ None).
  vm_compute; reflexivity.
Defined.

(** ** What the point writer is given *)

Lemma points_written_app (l1 l2 : list event) :
  points_written (l1 ++ l2) = points_written l1 ++ points_written l2.
Proof.
  induction l1 as [|ev l1 IH]; [reflexivity|].
  destruct ev; cbn [app points_written]; rewrite IH;
    now rewrite <- ?app_assoc.
Qed.

Lemma process_package_well_formed (data : bytes) (offset off' : Z)
      (pts : list point) (imu : option imu_record) :
  process_package data offset = Ok (pts, imu, off') ->
  Forall well_formed_point pts.
Proof.
  intros H.
  pose proof (process_package_ranges _ _ _ _ _ H) as Hr.
  pose proof (process_package_clean _ _ _ _ _ H) as Hc.
  pose proof H as Hi. apply process_package_inv in Hi.
  destruct Hi as (dt & subs & Hdt & _).
  pose proof (process_package_return_numbers _ _ _ _ _ _ H Hdt) as Hn.
  rewrite Forall_forall in *. intros p Hp.
  specialize (Hr p Hp). specialize (Hc p Hp). specialize (Hn p Hp).
  repeat split; try assumption; try apply Hr; try lia.
  assert (Z.of_nat (returns_of dt) <= 3); [|lia].
  unfold returns_of. destruct (dt =? 2), (dt =? 4), (dt =? 7); cbn; lia.
Qed.

Section Written.

Variable P : point -> Prop.
Hypothesis packages :
  forall data o ps i o', process_package data o = Ok (ps, i, o') -> Forall P ps.

Lemma add_frame_all_have base_name data n st fp fi off :
  all_have P st -> Forall P fp ->
  all_have P (add_frame base_name data n st fp fi off).
Proof.
  unfold all_have, add_frame. intros (Hc & Ha & Hl) Hfp.
  destruct (n =? 0); cbn.
  - repeat split; auto. apply Forall_app; auto.
  - destruct (_ || _); cbn; repeat split; auto.
    + rewrite points_written_app. cbn. rewrite app_nil_r.
      repeat (apply Forall_app; split); auto.
    + apply Forall_app; auto.
Qed.

Lemma frames_loop_all_have (fuel : nat) base_name data n :
  forall st st' e,
    all_have P st ->
    frames_loop fuel base_name data n st = Some (st', e) ->
    all_have P st'.
Proof.
  induction fuel as [|fuel IH]; intros st st' e Hst H;
    cbn [frames_loop] in H;
    destruct (st_offset st <? len data); try (injection H as <- <-; assumption);
    destruct (st_offset st + 24 >? len data);
    try (injection H as <- <-; assumption); try discriminate.
  destruct (unpack_Q _) as [c|]; cbn [bind] in H;
    [|injection H as <- <-; assumption].
  destruct (unpack_Q _) as [nx|]; cbn [bind] in H;
    [|injection H as <- <-; assumption].
  destruct (unpack_Q _) as [f|]; cbn [bind] in H;
    [|injection H as <- <-; assumption].
  destruct (process_frame data _ nx) as [[[[fp fi] off']|e']|] eqn:E;
    [| injection H as <- <-; assumption | discriminate].
  apply (process_frame_inv P) in E; [|apply packages].
  eapply IH; [|exact H]. apply add_frame_all_have; tauto.
Qed.

Lemma process_lvx_written base_name data n log st e :
  Forall P (points_written log) ->
  process_lvx base_name data n log = Some (st, e) ->
  Forall P (points_written (st_log st)).
Proof.
  unfold process_lvx. intros Hlog H.
  destruct (parse_header data) as [[[fd dc] off]|e0].
  2:{ injection H as <- <-. exact Hlog. }
  assert (Hinit : all_have P (initial_state off log))
    by (repeat split; [constructor | constructor | exact Hlog]).
  destruct (frames_loop _ _ _ _ _) as [[st0 e1]|] eqn:F; [|discriminate].
  apply frames_loop_all_have in F; [|exact Hinit].
  destruct F as (Hc & Ha & Hl).
  destruct e1 as [e1|]; injection H as <- <-; [exact Hl|].
  unfold finish. destruct (n =? 0); cbn [st_log];
    rewrite !points_written_app; cbn; rewrite ?app_nil_r;
    repeat (apply Forall_app; split); auto.
Qed.

Lemma main_loop_written files n :
  forall log log' e,
    Forall P (points_written log) ->
    main_loop files n log = Some (log', e) ->
    Forall P (points_written log').
Proof.
  induction files as [|[name data] rest IH]; intros log log' e Hlog H;
    cbn [main_loop] in H.
  - injection H as <- <-. exact Hlog.
  - destruct (process_lvx name data n log) as [[st [e0|]]|] eqn:E;
      try discriminate; apply process_lvx_written in E; auto.
    + injection H as <- <-. exact E.
    + eapply IH; eauto.
Qed.

End Written.

(** X16.  Every point handed to the point writer during a batch, in a
    chunk file or in the file of a whole capture, has its coordinates in
    the signed 32-bit range, its intensity in 0..255, a return number from
    1 to 3, and is not the sentinel; this holds of what was written before
    an exception too. *)
Theorem written_points_well_formed :
  forall files frames_per_output log e,
    main files frames_per_output = Some (log, e) ->
    Forall well_formed_point (points_written log).
Proof.
  intros files N log e H. unfold main in H.
  apply (main_loop_written well_formed_point) with (3 := H).
  - intros data o ps i o'. apply process_package_well_formed.
  - constructor.
Qed.

Lemma written_points_well_formed_witness :
  Forall well_formed_point
         (points_written [LasChunk "b"%string 0 [sample_point];
                          CsvChunk "b"%string 0 []; CsvOverall "b"%string []]).
Proof.
  apply (written_points_well_formed [("b"%string, sample_capture)] 2 _ None).
  vm_compute; reflexivity.
Defined.

(** ** A package decodes the same wherever it lies *)

Section Relocation.

Variables pre d post : bytes.

Let big : bytes := pre ++ d ++ post.

Lemma index_relocated (i v : Z) :
  0 <= i -> index d i = Ok v -> index big (len pre + i) = Ok v.
Proof.
  intros H0 H. pose proof (index_ok_range d i v H) as [Hr _].
  pose proof (len_nonneg pre). unfold index, big, len in *.
  replace (i <? 0) with false in H by (symmetry; apply Z.ltb_ge; lia).
  replace (Z.of_nat (length pre) + i <? 0) with false
    by (symmetry; apply Z.ltb_ge; lia).
  rewrite !length_app.
  replace ((0 <=? i) && (i <? Z.of_nat (length d))) with true in H
    by (symmetry; apply andb_true_iff; split;
        [apply Z.leb_le | apply Z.ltb_lt]; lia).
  match goal with
  | |- (if ?c then _ else _) = _ =>
    replace c with true
      by (symmetry; apply andb_true_iff; split;
          [apply Z.leb_le | apply Z.ltb_lt]; lia)
  end.
  replace (Z.to_nat (Z.of_nat (length pre) + i))
    with (length pre + Z.to_nat i)%nat by lia.
  rewrite nth_error_app2 by lia.
  replace (length pre + Z.to_nat i - length pre)%nat with (Z.to_nat i) by lia.
  rewrite nth_error_app1 by lia. exact H.
Qed.

Lemma slice_relocated (a b : Z) :
  0 <= a <= b -> b <= len d ->
  slice big (len pre + a) (len pre + b) = slice d a b.
Proof.
  intros Hab Hb. pose proof (len_nonneg pre). pose proof (len_nonneg post).
  unfold slice, clamp, big, len in *. rewrite !length_app.
  replace (a <? 0) with false by (symmetry; apply Z.ltb_ge; lia).
  replace (b <? 0) with false by (symmetry; apply Z.ltb_ge; lia).
  replace (Z.of_nat (length pre) + a <? 0) with false
    by (symmetry; apply Z.ltb_ge; lia).
  replace (Z.of_nat (length pre) + b <? 0) with false
    by (symmetry; apply Z.ltb_ge; lia).
  match goal with
  | |- firstn ?n (skipn ?k _) = firstn ?n' (skipn ?k' _) =>
    replace n with (Z.to_nat (b - a)) by lia;
    replace n' with (Z.to_nat (b - a)) by lia;
    replace k with (length pre + Z.to_nat a)%nat by lia;
    replace k' with (Z.to_nat a) by lia
  end.
  rewrite skipn_app, skipn_all2 by lia. cbn [app].
  replace (length pre + Z.to_nat a - length pre)%nat with (Z.to_nat a) by lia.
  rewrite skipn_app, firstn_app, length_skipn.
  replace (Z.to_nat (b - a) - (length d - Z.to_nat a))%nat with 0%nat by lia.
  cbn [firstn]. now rewrite app_nil_r.
Qed.

Lemma unpack_uint_relocated (w : nat) (a v : Z) :
  0 <= a -> (0 < w)%nat ->
  unpack_uint w (slice d a (a + Z.of_nat w)) = Ok v ->
  unpack_uint w (slice big (len pre + a) (len pre + a + Z.of_nat w)) = Ok v.
Proof.
  intros Ha Hw H.
  pose proof (proj1 (unpack_uint_slice_ok d w a Ha Hw) (ex_intro _ _ H)).
  replace (len pre + a + Z.of_nat w) with (len pre + (a + Z.of_nat w)) by lia.
  rewrite slice_relocated by lia. exact H.
Qed.

Lemma read_sub_relocated (off : Z) v :
  0 <= off -> read_sub d off = Ok v -> read_sub big (len pre + off) = Ok v.
Proof.
  intros H0 H. pose proof H as Hl.
  apply (fun H => proj1 (read_sub_ok d off H0) (ex_intro _ _ H)) in Hl.
  unfold read_sub in *. repeat step_bind H. injection H as <-.
  replace (len pre + off + 12) with (len pre + (off + 12)) by lia.
  replace (len pre + off + 13) with (len pre + (off + 13)) by lia.
  rewrite (index_relocated (off + 12) _ ltac:(lia) E),
          (index_relocated (off + 13) _ ltac:(lia) E0). cbn [bind].
  replace (len pre + off + 4) with (len pre + (off + 4)) by lia.
  replace (len pre + off + 8) with (len pre + (off + 8)) by lia.
  rewrite !slice_relocated by lia. reflexivity.
Qed.

Lemma single_relocates :
  relocates (len pre) (single_return_entry d) (single_return_entry big).
Proof.
  intros off pts off' pts' H0 H. unfold single_return_entry in *.
  step_bind H. rewrite (read_sub_relocated _ _ H0 E). cbn [bind].
  destruct a as [[[[x y] z] r] t]. injection H as <- <-.
  split; [lia|]. do 2 f_equal. lia.
Qed.

Lemma double_relocates :
  relocates (len pre) (double_return_entry d) (double_return_entry big).
Proof.
  intros off pts off' pts' H0 H. unfold double_return_entry in *.
  step_bind H. rewrite (read_sub_relocated _ _ H0 E). cbn [bind].
  destruct a as [[[[x1 y1] z1] r1] t1].
  step_bind H.
  replace (len pre + off + 14) with (len pre + (off + 14)) by lia.
  rewrite (read_sub_relocated (off + 14) _ ltac:(lia) E0). cbn [bind].
  destruct a as [[[[x2 y2] z2] r2] t2]. injection H as <- <-.
  split; [lia|]. do 2 f_equal. lia.
Qed.

Lemma triple_relocates :
  relocates (len pre) (triple_return_entry d) (triple_return_entry big).
Proof.
  intros off pts off' pts' H0 H. unfold triple_return_entry in *.
  step_bind H. rewrite (read_sub_relocated _ _ H0 E). cbn [bind].
  destruct a as [[[[x1 y1] z1] r1] t1].
  step_bind H.
  replace (len pre + off + 14) with (len pre + (off + 14)) by lia.
  rewrite (read_sub_relocated (off + 14) _ ltac:(lia) E0). cbn [bind].
  destruct a as [[[[x2 y2] z2] r2] t2].
  step_bind H.
  replace (len pre + off + 28) with (len pre + (off + 28)) by lia.
  rewrite (read_sub_relocated (off + 28) _ ltac:(lia) E1). cbn [bind].
  destruct a as [[[[x3 y3] z3] r3] t3]. injection H as <- <-.
  split; [lia|]. do 2 f_equal. lia.
Qed.

Lemma for_range_relocated body_d body_big :
  relocates (len pre) body_d body_big ->
  forall n off pts off' pts',
    0 <= off ->
    for_range n body_d (off, pts) = Ok (off', pts') ->
    for_range n body_big (len pre + off, pts) = Ok (len pre + off', pts').
Proof.
  intros Hb. induction n as [|n IH]; intros off pts off' pts' H0 H;
    cbn [for_range] in *.
  - now injection H as <- <-.
  - step_bind H. destruct a as [off1 pts1].
    destruct (Hb _ _ _ _ H0 E) as [Hle ->]. cbn [bind].
    apply IH; [lia | assumption].
Qed.

Lemma read_package_header_relocated (offset o : Z) (h : package_header) :
  0 <= offset ->
  read_package_header d offset = Ok (h, o) ->
  read_package_header big (len pre + offset) = Ok (h, len pre + o).
Proof.
  intros H0 H. unfold read_package_header in *. repeat step_bind H.
  injection H as <- <-.
  match goal with
  | E : unpack_I (slice d ?a _) = Ok _ |- _ =>
    pose proof (proj1 (unpack_I_ok d a ltac:(lia)) (ex_intro _ _ E))
  end.
  match goal with
  | E : unpack_Q (slice d ?a _) = Ok _ |- _ =>
    pose proof (proj1 (unpack_Q_ok d a ltac:(lia)) (ex_intro _ _ E))
  end.
  repeat match goal with
         | E : index d ?i = Ok ?v |- context [index big ?j] =>
           replace (index big j) with (index d i)
             by (replace j with (len pre + i) by lia;
                 symmetry; rewrite E; apply index_relocated; [lia | exact E]);
           rewrite E; cbn [bind]
         | E : unpack_I (slice d ?a ?b) = Ok ?v
           |- context [unpack_I (slice big ?j ?k)] =>
           replace (slice big j k) with (slice d a b)
             by (rewrite <- (slice_relocated a b) by lia; f_equal; lia);
           rewrite E; cbn [bind]
         | E : unpack_Q (slice d ?a ?b) = Ok ?v
           |- context [unpack_Q (slice big ?j ?k)] =>
           replace (slice big j k) with (slice d a b)
             by (rewrite <- (slice_relocated a b) by lia; f_equal; lia);
           rewrite E; cbn [bind]
         end.
  do 2 f_equal. lia.
Qed.

Lemma process_payload_relocated (h : package_header) (o o' : Z) pts imu :
  0 <= o ->
  process_payload d h o = Ok (pts, imu, o') ->
  process_payload big h (len pre + o) = Ok (pts, imu, len pre + o').
Proof.
  intros H0 H. unfold process_payload in *.
  destruct (data_type h =? 2);
    [|destruct (data_type h =? 4);
      [|destruct (data_type h =? 7);
        [|destruct (data_type h =? 6)]]].
  - step_bind H. destruct a as [o1 p]. injection H as <- <- <-.
    now rewrite (for_range_relocated _ _ single_relocates _ _ _ _ _ H0 E).
  - step_bind H. destruct a as [o1 p]. injection H as <- <- <-.
    now rewrite (for_range_relocated _ _ double_relocates _ _ _ _ _ H0 E).
  - step_bind H. destruct a as [o1 p]. injection H as <- <- <-.
    now rewrite (for_range_relocated _ _ triple_relocates _ _ _ _ _ H0 E).
  - step_bind H. destruct a as [[[[[g1 g2] g3] a1] a2] a3].
    injection H as <- <- <-.
    pose proof (proj1 (unpack_6f_ok d o H0) (ex_intro _ _ E)).
    replace (len pre + o + 24) with (len pre + (o + 24)) by lia.
    rewrite slice_relocated by lia. rewrite E. reflexivity.
  - injection H as <- <- <-. do 2 f_equal. lia.
Qed.

End Relocation.

(** X17.  A package decodes the same wherever it lies: when the package
    at an offset of a buffer decodes, the same bytes found after any
    prefix and before any suffix decode to the same points and IMU record,
    and end as many bytes further as the prefix is long. *)
Theorem package_decoding_is_local :
  forall pre d post offset pts imu off',
    0 <= offset ->
    process_package d offset = Ok (pts, imu, off') ->
    process_package (pre ++ d ++ post) (len pre + offset)
    = Ok (pts, imu, len pre + off').
Proof.
  intros pre d post offset pts imu off' H0 H. unfold process_package in *.
  step_bind H. destruct a as [h o].
  rewrite (read_package_header_relocated pre d post _ _ _ H0 E). cbn [bind].
  apply read_package_header_inv in E. destruct E as (-> & _).
  apply process_payload_relocated; [lia | assumption].
Qed.

Lemma package_decoding_is_local_witness :
  process_package (zeros 53 ++ sample_package ++ [x00]) (len (zeros 53) + 0)
  = Ok ([sample_point], None, len (zeros 53) + 1363).
Proof.
  apply (package_decoding_is_local (zeros 53) sample_package [x00] 0);
    [lia | vm_compute; reflexivity].
Defined.
